(** * The LS-8 emulator of [cpu.py]: a shallow embedding and its properties

    The [CPU] class keeps eight registers, 256 memory cells, a program counter
    and a dictionary of flags.  Its methods mutate these fields and may raise;
    here they are functions in a state-and-exception monad over a record with
    the same fields.  Python integers are unbounded, so every cell is a [Z].
    Python lists accept negative subscripts, which is written out in
    [py_index]. *)

From stdpp Require Import gmap strings list fin_maps pretty.

Open Scope Z_scope.

(** ** Opcodes (cpu.py, lines 6-19) *)

Definition LDI  : Z := 0x82.  (* 0b10000010 *)
Definition PRN  : Z := 0x47.  (* 0b01000111 *)
Definition HLT  : Z := 0x01.  (* 0b00000001 *)
Definition MUL  : Z := 0xA2.  (* 0b10100010 *)
Definition PUSH : Z := 0x45.  (* 0b01000101 *)
Definition POP  : Z := 0x46.  (* 0b01000110 *)
Definition RET  : Z := 0x11.  (* 0b00010001 *)
Definition CALL : Z := 0x50.  (* 0b01010000 *)
Definition JEQ  : Z := 0x55.  (* 0b01010101 *)
Definition CMP  : Z := 0xA7.  (* 0b10100111 *)
Definition JMP  : Z := 0x54.  (* 0b01010100 *)
Definition JNE  : Z := 0x56.  (* 0b01010110 *)

(** The stack pointer is register 7. *)
Definition SP : Z := 7.

(** The twelve opcodes that [run] decodes. *)
Definition instruction_table : list Z :=
  [LDI; PRN; MUL; POP; PUSH; CALL; RET; CMP; JMP; JNE; JEQ; HLT].

(** ** Python lists and dictionaries *)

Module Py.

(** What Python raises in the code under study.  [sys.exit(n)] raises
    [SystemExit n], which ends the process with status [n]; every other
    exception is uncaught in [run] and ends it with a traceback. *)
Inductive exn :=
| IndexError
| KeyError (key : string)
| ZeroDivisionError
| OverflowError
| ValueError
| Exception (msg : string)
| SystemExit (code : Z).

(** CPython converts an integer to its decimal numeral only up to
    [sys.get_int_max_str_digits()] digits, 4300 by default; the sign does
    not count. *)
Definition int_max_str_digits : Z := 4300.

Definition str_digits_ok (n : Z) : bool :=
  bool_decide (Z.abs n < 10 ^ int_max_str_digits).

(** The true division of two integers rounds the quotient to the nearest
    double; it overflows when the rounded quotient would reach [2^1024],
    that is from the midpoint [2^1024 - 2^970] above the largest double. *)
Definition truediv_overflows (x y : Z) : bool :=
  bool_decide ((2 ^ 1024 - 2 ^ 970) * Z.abs y ≤ Z.abs x).

(** [l[i]] for an integer [i]: positions [0 .. len-1] count from the left,
    [-len .. -1] from the right, anything else is out of range. *)
Definition py_index {A} (l : list A) (i : Z) : option nat :=
  let n := Z.of_nat (length l) in
  if bool_decide (0 <= i < n) then Some (Z.to_nat i)
  else if bool_decide (- n <= i < 0) then Some (Z.to_nat (i + n))
  else None.

Definition getitem {A} (l : list A) (i : Z) : option A :=
  k ← py_index l i; l !! k.

Definition setitem {A} (l : list A) (i : Z) (v : A) : option (list A) :=
  k ← py_index l i; Some (<[k := v]> l).

(** Exit status of the process for an exception that reaches the top. *)
Definition exit_status (e : exn) : Z :=
  match e with
  | SystemExit code => code
  | _ => 1
  end.


End Py.
Export Py.

(** ** The machine state

    [reg], [ram], [pc] and [flag] are the attributes that [__init__] creates.
    [stdout] collects the lines written by [print], oldest first. *)

Record cpu := Cpu {
  reg : list Z;
  ram : list Z;
  pc : Z;
  flag : gmap string Z;
  stdout : list string
}.

Definition set_reg (r : list Z) (s : cpu) : cpu :=
  Cpu r (ram s) (pc s) (flag s) (stdout s).
Definition set_ram (m : list Z) (s : cpu) : cpu :=
  Cpu (reg s) m (pc s) (flag s) (stdout s).
Definition set_pc (p : Z) (s : cpu) : cpu :=
  Cpu (reg s) (ram s) p (flag s) (stdout s).
Definition set_flag (f : gmap string Z) (s : cpu) : cpu :=
  Cpu (reg s) (ram s) (pc s) f (stdout s).
Definition set_stdout (o : list string) (s : cpu) : cpu :=
  Cpu (reg s) (ram s) (pc s) (flag s) o.

(** [CPU.__init__] *)
Definition init : cpu :=
  Cpu (replicate 8 0) (replicate 256 0) 0 ∅ [].

(** ** The monad of methods: state that survives a raised exception

    A method either returns ([Ok]), raises ([Raise]), or stores a float in a
    register ([Float]).  The last is where the integer model stops: only the
    true division of [alu] can do it. *)

Inductive res (A : Type) :=
| Ok (a : A)
| Raise (e : exn)
| Float.
Arguments Ok {A} a.
Arguments Raise {A} e.
Arguments Float {A}.

Definition M (A : Type) : Type := cpu → cpu * res A.

Definition ret {A} (a : A) : M A := λ s, (s, Ok a).
Definition raise {A} (e : exn) : M A := λ s, (s, Raise e).
Definition bind {A B} (m : M A) (k : A → M B) : M B :=
  λ s, match m s with
       | (s', Ok a) => k a s'
       | (s', Raise e) => (s', Raise e)
       | (s', Float) => (s', Float)
       end.
Definition get : M cpu := λ s, (s, Ok s).
Definition modify (f : cpu → cpu) : M unit := λ s, (f s, Ok tt).

Declare Scope cpu_scope.
Delimit Scope cpu_scope with cpu.
Notation "x <-- m ;; k" := (bind m (λ x, k))
  (at level 100, m at next level, right associativity) : cpu_scope.
Notation "m ;;; k" := (bind m (λ _, k))
  (at level 100, right associativity) : cpu_scope.
Open Scope cpu_scope.

(** A subscript read or write that raises [IndexError] out of range. *)
Definition sub {A} (o : option A) : M A :=
  match o with
  | Some a => ret a
  | None => raise IndexError
  end.

(** [self.reg[i]] and [self.reg[i] = v] *)
Definition reg_get (i : Z) : M Z :=
  s <-- get ;; sub (getitem (reg s) i).
Definition reg_set (i v : Z) : M unit :=
  s <-- get ;; r <-- sub (setitem (reg s) i v) ;; modify (set_reg r).

(** [self.ram[i]] and [self.ram[i] = v] *)
Definition ram_get (i : Z) : M Z :=
  s <-- get ;; sub (getitem (ram s) i).
Definition ram_set (i v : Z) : M unit :=
  s <-- get ;; m <-- sub (setitem (ram s) i v) ;; modify (set_ram m).

(** [self.reg[i] += n] and [self.reg[i] -= n] *)
Definition reg_iadd (i n : Z) : M unit :=
  x <-- reg_get i ;; reg_set i (x + n).
Definition reg_isub (i n : Z) : M unit :=
  x <-- reg_get i ;; reg_set i (x - n).

(** [self.flag[k]] raises [KeyError] for an absent key. *)
Definition flag_get (k : string) : M Z :=
  s <-- get ;;
  match flag s !! k with
  | Some v => ret v
  | None => raise (KeyError k)
  end.
Definition flag_set (k : string) (v : Z) : M unit :=
  modify (λ s, set_flag (<[k := v]> (flag s)) s).

Definition print (line : string) : M unit :=
  modify (λ s, set_stdout (stdout s ++ [line]) s).

(** [print(n)] for an integer [n]: [str(n)] raises [ValueError] for a
    numeral of more than 4300 digits, before anything is written. *)
Definition print_int (n : Z) : M unit :=
  if str_digits_ok n then print (pretty n) else raise ValueError.

(** ** [ram_read] and [ram_write] (cpu.py, lines 129-150)

    [ram_write] takes the value first ([mdr]) and the address second
    ([mar]). *)

Definition ram_read (mar : Z) : M Z := ram_get mar.

Definition ram_write (mdr mar : Z) : M unit := ram_set mar mdr.

(** ** [alu] (cpu.py, lines 62-103)

    The operation is chosen by a string.  [DIV] is Python's true division:
    it raises [ZeroDivisionError] on a zero divisor and [OverflowError] when
    the quotient is too large for a float, and otherwise stores a float,
    which ends the integer model ([Float]). *)

Definition alu (op : string) (reg_a reg_b : Z) : M unit :=
  if String.eqb op "ADD" then
    x <-- reg_get reg_a ;; y <-- reg_get reg_b ;; reg_set reg_a (x + y)
  else if String.eqb op "SUB" then
    x <-- reg_get reg_a ;; y <-- reg_get reg_b ;; reg_set reg_a (x - y)
  else if String.eqb op "MUL" then
    x <-- reg_get reg_a ;; y <-- reg_get reg_b ;; reg_set reg_a (x * y)
  else if String.eqb op "DIV" then
    x <-- reg_get reg_a ;; y <-- reg_get reg_b ;;
    if bool_decide (y = 0) then raise ZeroDivisionError
    else if truediv_overflows x y then raise OverflowError
    else (λ s, (s, Float))
  else if String.eqb op "CMP" then
    (x <-- reg_get reg_a ;; y <-- reg_get reg_b ;;
     if bool_decide (x < y) then flag_set "L" 1 else flag_set "L" 0) ;;;
    (x <-- reg_get reg_a ;; y <-- reg_get reg_b ;;
     if bool_decide (x > y) then flag_set "G" 1 else flag_set "G" 0) ;;;
    x <-- reg_get reg_a ;; y <-- reg_get reg_b ;;
    if bool_decide (x = y) then flag_set "E" 1 else flag_set "E" 0
  else
    raise (Exception "Unsupported ALU operation").

(** ** [run] (cpu.py, lines 152-278) *)

Definition get_pc : M Z := s <-- get ;; ret (pc s).
Definition pc_set (p : Z) : M unit := modify (set_pc p).
Definition pc_add (n : Z) : M unit := p <-- get_pc ;; pc_set (p + n).

(** [sys.exit(code)] *)
Definition sys_exit {A} (code : Z) : M A := raise (SystemExit code).

(** The chain of [if]/[elif] on the fetched opcode [op], in the order of the
    source; [p] is [self.pc] on entry.  [self.alu] is looked up on the object
    at each call, so the chain is written over the method it finds there. *)
Definition dispatch (alu : string → Z → Z → M unit) (p op : Z) : M unit :=
  if bool_decide (op = LDI) then
    index <-- ram_get (p + 1) ;;
    value <-- ram_get (p + 2) ;;
    reg_set index value ;;;
    pc_add 3
  else if bool_decide (op = PRN) then
    index <-- ram_get (p + 1) ;;
    v <-- reg_get index ;;
    print_int v ;;;
    pc_add 2
  else if bool_decide (op = MUL) then
    reg_a <-- ram_read (p + 1) ;;
    reg_b <-- ram_read (p + 2) ;;
    alu "MUL" reg_a reg_b ;;;
    pc_add 3
  else if bool_decide (op = POP) then
    sp <-- reg_get SP ;;
    stack_val <-- ram_read sp ;;
    reg_num <-- ram_read (p + 1) ;;
    reg_set reg_num stack_val ;;;
    reg_iadd SP 1 ;;;
    pc_add 2
  else if bool_decide (op = PUSH) then
    reg_isub SP 1 ;;;
    stack_addr <-- reg_get SP ;;
    reg_num <-- ram_read (p + 1) ;;
    val <-- reg_get reg_num ;;
    (* the call is [self.ram_write(stack_addr, val)] *)
    ram_write stack_addr val ;;;
    pc_add 2
  else if bool_decide (op = CALL) then
    reg_isub SP 1 ;;;
    stack_addr <-- reg_get SP ;;
    let return_addr := p + 2 in
    (* the call is [self.ram_write(stack_addr, return_addr)] *)
    ram_write stack_addr return_addr ;;;
    reg_num <-- ram_read (p + 1) ;;
    target <-- reg_get reg_num ;;
    pc_set target
  else if bool_decide (op = RET) then
    sp <-- reg_get SP ;;
    ret_addr <-- ram_read sp ;;
    pc_set ret_addr ;;;
    reg_iadd SP 1
  else if bool_decide (op = CMP) then
    reg_a <-- ram_read (p + 1) ;;
    reg_b <-- ram_read (p + 2) ;;
    alu "CMP" reg_a reg_b ;;;
    pc_add 3
  else if bool_decide (op = JMP) then
    reg_a <-- ram_read (p + 1) ;;
    target <-- reg_get reg_a ;;
    pc_set target
  else if bool_decide (op = JNE) then
    reg_a <-- ram_read (p + 1) ;;
    e <-- flag_get "E" ;;
    if bool_decide (e = 0) then
      target <-- reg_get reg_a ;; pc_set target
    else pc_add 2
  else if bool_decide (op = JEQ) then
    reg_a <-- ram_read (p + 1) ;;
    e <-- flag_get "E" ;;
    if bool_decide (e = 1) then
      target <-- reg_get reg_a ;; pc_set target
    else pc_add 2
  else if bool_decide (op = HLT) then
    print "Exiting..." ;;;
    sys_exit 0
  else
    print "ERROR: Unknown command" ;;;
    sys_exit 1.

(** One turn of the [while True] loop: fetch the opcode at [pc], then
    dispatch on it. *)
Definition step_with (alu : string → Z → Z → M unit) : M unit :=
  p <-- get_pc ;;
  op <-- ram_read p ;;
  dispatch alu p op.

Definition step : M unit := step_with alu.

(** The loop itself never returns: it ends only by an exception.  [run n]
    runs at most [n] turns; [Ok tt] means the machine is still running after
    [n] turns. *)
Fixpoint run (fuel : nat) : M unit :=
  match fuel with
  | O => ret tt
  | S n => step ;;; run n
  end.

(** ** [load], after the text of the file is parsed (cpu.py, lines 38-52)

    Each number read from the file is stored at the next address, from 0. *)
Fixpoint load_from (address : Z) (nums : list Z) : M unit :=
  match nums with
  | [] => ret tt
  | num :: rest => ram_set address num ;;; load_from (address + 1) rest
  end.

Definition load (nums : list Z) : M unit := load_from 0 nums.

(** The machine after [CPU()] and [load]. *)
Definition boot (nums : list Z) : cpu := fst (load nums init).

(** The opcode that the next turn fetches. *)
Definition fetch (s : cpu) : option Z := getitem (ram s) (pc s).

(** [exec s ops s']: from [s] the loop makes [length ops] turns without
    raising, fetches the opcodes [ops] in this order, and reaches [s']. *)
Inductive exec : cpu → list Z → cpu → Prop :=
| exec_nil s : exec s [] s
| exec_cons s op s' ops s'' :
    fetch s = Some op →
    step s = (s', Ok tt) →
    exec s' ops s'' →
    exec s (op :: ops) s''.

(** ** Predicates and relations of the statements *)

(** The shape that [run] keeps: eight registers, 256 cells. *)
Definition shaped (s : cpu) : Prop :=
  length (reg s) = 8%nat ∧ length (ram s) = 256%nat.

(** [keeps R m]: whatever [m] does, returning or raising, the state it leaves
    is related by [R] to the one it started from.  For a preorder [R] that
    the four field updates respect, every method except the flag updates of
    [alu] keeps [R]. *)
Definition keeps {A} (R : relation cpu) (m : M A) : Prop :=
  ∀ s s' r, m s = (s', r) → R s s'.

Create HintDb keeps.

(** The flag dictionary is the same; a property is carried over. *)
Definition same_flags : relation cpu := λ s s', flag s' = flag s.

(** [E] holds 0 or 1, as after a [CMP]. *)
Definition E_defined (s : cpu) : Prop :=
  ∃ e, flag s !! "E" = Some e ∧ (e = 0 ∨ e = 1).

Definition carries (P : cpu → Prop) : relation cpu := λ s s', P s → P s'.

Definition flag_is_set (s : cpu) (k : string) : Prop := flag s !! k = Some 1.
Definition flag_is_clear (s : cpu) (k : string) : Prop := flag s !! k = Some 0.

Definition exactly_one (P Q R : Prop) : Prop :=
  (P ∧ ¬ Q ∧ ¬ R) ∨ (¬ P ∧ Q ∧ ¬ R) ∨ (¬ P ∧ ¬ Q ∧ R).

Definition bit (b : bool) : Z := if b then 1 else 0.

(** The dictionary that a [CMP] of [x] with [y] leaves. *)
Definition cmp_flags (x y : Z) (f : gmap string Z) : gmap string Z :=
  <["E" := bit (bool_decide (x = y))]>
    (<["G" := bit (bool_decide (x > y))]>
       (<["L" := bit (bool_decide (x < y))]> f)).

(** Two subscripts of one list that name the same cell. *)
Definition same_cell {A} (l : list A) (i j : Z) : Prop :=
  py_index l i = py_index l j.

(** Whether a printed line shows the number [n] in decimal, and whether it
    shows any digit at all. *)
Definition mentions (line : string) (n : Z) : bool :=
  match String.index 0 (pretty n) line with
  | Some _ => true
  | None => false
  end.

Definition is_digit (c : Ascii.ascii) : bool :=
  let n := Ascii.nat_of_ascii c in (48 <=? n)%nat && (n <=? 57)%nat.

Definition has_digit (line : string) : bool :=
  existsb is_digit (String.list_ascii_of_string line).

Definition alu_unsupported : exn := Exception "Unsupported ALU operation".

(** A result that comes neither from the last branch of [alu] nor from its
    division. *)
Definition alu_fine {A} (r : res A) : Prop :=
  r ≠ Raise alu_unsupported ∧ r ≠ Float.

Definition alu_safe {A} (m : M A) : Prop := ∀ s, alu_fine (snd (m s)).

Create HintDb alu_safe.

(** The turns of [exec], computed: the opcodes fetched in [fuel] turns that
    all return, and the state reached. *)
Fixpoint turns (fuel : nat) (s : cpu) : option (list Z * cpu) :=
  match fuel with
  | O => Some ([], s)
  | S n =>
      match fetch s, step s with
      | Some op, (s', Ok tt) =>
          match turns n s' with
          | Some (ops, s'') => Some (op :: ops, s'')
          | None => None
          end
      | _, _ => None
      end
  end.

(** How a method may end: returning, or raising an exception that [Q]
    admits; never with a float. *)
Definition ends_with (Q : exn → Prop) {A} (r : res A) : Prop :=
  match r with
  | Ok _ => True
  | Raise e => Q e
  | Float => False
  end.

Definition only_ends {A} (Q : exn → Prop) (m : M A) : Prop :=
  ∀ s, ends_with Q (snd (m s)).

(** The five ways in which [run] ends. *)
Definition run_ending (e : exn) : Prop :=
  e = IndexError ∨ e = KeyError "E" ∨ e = ValueError ∨
  e = SystemExit 0 ∨ e = SystemExit 1.

Definition same_ram : relation cpu := λ s s', ram s' = ram s.
Definition same_stdout : relation cpu := λ s s', stdout s' = stdout s.

(** ** A first run *)

(** Python's [str(n)] for the integers that the examples print. *)
Example pretty_72 : pretty 72 = "72".
Proof. reflexivity. Qed.

Example pretty_neg : pretty (-1) = "-1".
Proof. reflexivity. Qed.

Example scenario_A :
  let s := boot [LDI; 0; 8; LDI; 1; 9; MUL; 0; 1; PRN; 0; HLT] in
  ∃ s', run 5 s = (s', Raise (SystemExit 0)) ∧ stdout s' = ["72"; "Exiting..."].
Proof. vm_compute. eexists. split; reflexivity. Qed.

(** ** Subscripts *)

Section subscripts.
Context {A : Type}.
Implicit Types (l : list A) (i : Z) (k : nat).

Lemma py_index_nonneg l i :
  0 ≤ i < Z.of_nat (length l) → py_index l i = Some (Z.to_nat i).
Proof. intros H. unfold py_index. by rewrite bool_decide_eq_true_2. Qed.

Lemma py_index_neg l i :
  - Z.of_nat (length l) ≤ i < 0 →
  py_index l i = Some (Z.to_nat (i + Z.of_nat (length l))).
Proof.
  intros H. unfold py_index.
  rewrite bool_decide_eq_false_2 by lia. by rewrite bool_decide_eq_true_2.
Qed.

Lemma py_index_out l i :
  i < - Z.of_nat (length l) ∨ Z.of_nat (length l) ≤ i → py_index l i = None.
Proof.
  intros H. unfold py_index.
  rewrite !bool_decide_eq_false_2 by lia. done.
Qed.

Lemma py_index_lt l i k : py_index l i = Some k → (k < length l)%nat.
Proof.
  unfold py_index. repeat case_bool_decide; intros; simplify_eq; lia.
Qed.

Lemma py_index_insert l i k (v : A) : py_index (<[k := v]> l) i = py_index l i.
Proof. unfold py_index. by rewrite length_insert. Qed.

Lemma getitem_is_Some l i :
  is_Some (getitem l i) ↔ - Z.of_nat (length l) ≤ i < Z.of_nat (length l).
Proof.
  unfold getitem. split.
  - intros [x Hx]. destruct (py_index l i) as [k|] eqn:Hk; [|done].
    unfold py_index in Hk. repeat case_bool_decide; simplify_eq; lia.
  - intros H. destruct (decide (0 ≤ i)).
    + rewrite py_index_nonneg by lia. simpl. apply lookup_lt_is_Some_2. lia.
    + rewrite py_index_neg by lia. simpl. apply lookup_lt_is_Some_2. lia.
Qed.

Lemma setitem_is_Some l i (v : A) :
  is_Some (setitem l i v) ↔ is_Some (getitem l i).
Proof.
  unfold setitem, getitem. destruct (py_index l i) as [k|] eqn:Hk; simpl.
  - split; intros _; [|by eexists].
    apply lookup_lt_is_Some_2. by eapply py_index_lt.
  - done.
Qed.

Lemma setitem_length l i (v : A) l' :
  setitem l i v = Some l' → length l' = length l.
Proof.
  unfold setitem. destruct (py_index l i); intros; simplify_eq/=.
  apply length_insert.
Qed.

(** Reading back the cell just written. *)
Lemma getitem_setitem_same l i j (v : A) l' :
  setitem l i v = Some l' → py_index l j = py_index l i →
  getitem l' j = Some v.
Proof.
  unfold setitem, getitem. intros Hs Hij.
  destruct (py_index l i) as [k|] eqn:Hk; simplify_eq/=.
  rewrite py_index_insert, Hij. simpl.
  apply list_lookup_insert_eq. by eapply py_index_lt.
Qed.

(** A write leaves every other cell as it was. *)
Lemma getitem_setitem_other l i j (v : A) l' :
  setitem l i v = Some l' → py_index l j ≠ py_index l i →
  getitem l' j = getitem l j.
Proof.
  unfold setitem, getitem. intros Hs Hij.
  destruct (py_index l i) as [k|] eqn:Hk; simplify_eq/=.
  rewrite py_index_insert.
  destruct (py_index l j) as [k'|]; simpl; [|done].
  apply list_lookup_insert_ne. congruence.
Qed.

End subscripts.

(** ** Shapes that [run] keeps *)

Lemma init_shaped : shaped init.
Proof. split; reflexivity. Qed.

(** ** Relations that every method keeps *)

Section keeps.
Context (R : relation cpu) `{!PreOrder R}.

Lemma keeps_ret {A} (a : A) : keeps R (ret a).
Proof. intros s s' r [= <- _]. reflexivity. Qed.

Lemma keeps_raise {A} e : keeps R (raise (A:=A) e).
Proof. intros s s' r [= <- _]. reflexivity. Qed.

Lemma keeps_get : keeps R get.
Proof. intros s s' r [= <- _]. reflexivity. Qed.

Lemma keeps_sub {A} (o : option A) : keeps R (sub o).
Proof. destruct o; [apply keeps_ret | apply keeps_raise]. Qed.

Lemma keeps_bind {A B} (m : M A) (k : A → M B) :
  keeps R m → (∀ a, keeps R (k a)) → keeps R (bind m k).
Proof.
  intros Hm Hk s s' r. unfold bind.
  destruct (m s) as [s1 [a|e|]] eqn:E; intros H.
  - transitivity s1; [by eapply Hm | by eapply Hk].
  - injection H as <- _. by eapply Hm.
  - injection H as <- _. by eapply Hm.
Qed.

Lemma keeps_if {A} (b : bool) (m1 m2 : M A) :
  keeps R m1 → keeps R m2 → keeps R (if b then m1 else m2).
Proof. by destruct b. Qed.

Hypothesis R_pc : ∀ s p, R s (set_pc p s).
Hypothesis R_out : ∀ s o, R s (set_stdout o s).
Hypothesis R_reg : ∀ s r, length r = length (reg s) → R s (set_reg r s).
Hypothesis R_ram : ∀ s m, length m = length (ram s) → R s (set_ram m s).

Lemma keeps_get_pc : keeps R get_pc.
Proof. intros s s' r [= <- _]. reflexivity. Qed.

Lemma keeps_pc_set p : keeps R (pc_set p).
Proof. intros s s' r [= <- _]. apply R_pc. Qed.

Lemma keeps_pc_add n : keeps R (pc_add n).
Proof. intros s s' r [= <- _]. apply R_pc. Qed.

Lemma keeps_print line : keeps R (print line).
Proof. intros s s' r [= <- _]. apply R_out. Qed.

Lemma keeps_print_int n : keeps R (print_int n).
Proof. apply keeps_if; [apply keeps_print | apply keeps_raise]. Qed.

Lemma keeps_sys_exit {A} code : keeps R (sys_exit (A:=A) code).
Proof. apply keeps_raise. Qed.

Lemma keeps_reg_get i : keeps R (reg_get i).
Proof. apply keeps_bind; [apply keeps_get | intros; apply keeps_sub]. Qed.

Lemma keeps_ram_get a : keeps R (ram_get a).
Proof. apply keeps_bind; [apply keeps_get | intros; apply keeps_sub]. Qed.

Lemma keeps_ram_read a : keeps R (ram_read a).
Proof. apply keeps_ram_get. Qed.

Lemma keeps_flag_get k : keeps R (flag_get k).
Proof.
  intros s s' r. unfold flag_get, bind, get, ret, raise.
  destruct (flag s !! k); intros [= <- _]; reflexivity.
Qed.

Lemma keeps_reg_set i v : keeps R (reg_set i v).
Proof.
  intros s s' r. unfold reg_set, bind, get, sub, ret, raise, modify.
  destruct (setitem (reg s) i v) as [l|] eqn:E; intros [= <- _].
  - apply R_reg. by eapply setitem_length.
  - reflexivity.
Qed.

Lemma keeps_ram_set a v : keeps R (ram_set a v).
Proof.
  intros s s' r. unfold ram_set, bind, get, sub, ret, raise, modify.
  destruct (setitem (ram s) a v) as [l|] eqn:E; intros [= <- _].
  - apply R_ram. by eapply setitem_length.
  - reflexivity.
Qed.

Lemma keeps_ram_write v a : keeps R (ram_write v a).
Proof. apply keeps_ram_set. Qed.

Lemma keeps_load_from address nums : keeps R (load_from address nums).
Proof.
  revert address. induction nums as [|num rest IH]; intros address; simpl.
  - apply keeps_ret.
  - apply keeps_bind; [apply keeps_ram_set | intros; apply IH].
Qed.

Lemma keeps_reg_iadd i n : keeps R (reg_iadd i n).
Proof.
  apply keeps_bind; [apply keeps_reg_get | intros; apply keeps_reg_set].
Qed.

Lemma keeps_reg_isub i n : keeps R (reg_isub i n).
Proof.
  apply keeps_bind; [apply keeps_reg_get | intros; apply keeps_reg_set].
Qed.

Lemma keeps_alu_MUL a b : keeps R (alu "MUL" a b).
Proof.
  cbv [alu String.eqb Ascii.eqb Bool.eqb].
  repeat (apply keeps_bind; [apply keeps_reg_get | intros]).
  apply keeps_reg_set.
Qed.

Hypothesis R_flag01 : ∀ s k v,
  v = 0 ∨ v = 1 → R s (set_flag (<[k := v]> (flag s)) s).

Lemma keeps_flag_set01 k v : v = 0 ∨ v = 1 → keeps R (flag_set k v).
Proof. intros Hv s s' r [= <- _]. by apply R_flag01. Qed.

Lemma keeps_alu_CMP a b : keeps R (alu "CMP" a b).
Proof.
  cbv [alu String.eqb Ascii.eqb Bool.eqb].
  repeat first
    [ apply keeps_reg_get
    | apply keeps_flag_set01; lia
    | apply keeps_if
    | apply keeps_bind; [ | intros ] ].
Qed.

Local Hint Resolve keeps_ret keeps_raise keeps_get keeps_sub keeps_get_pc
  keeps_pc_set keeps_pc_add keeps_print keeps_print_int keeps_sys_exit
  keeps_reg_get
  keeps_ram_get keeps_ram_read keeps_flag_get keeps_reg_set keeps_ram_set
  keeps_ram_write
  keeps_reg_iadd keeps_reg_isub : keeps.

(** The dispatch keeps [R] as soon as the two ALU calls it can make do. *)
Lemma keeps_dispatch alu' p op :
  (∀ a b, keeps R (alu' "MUL" a b)) →
  (op = CMP → ∀ a b, keeps R (alu' "CMP" a b)) →
  keeps R (dispatch alu' p op).
Proof.
  intros HMUL HCMP. unfold dispatch.
  repeat first
    [ by auto with keeps
    | by apply HCMP
    | case_bool_decide
    | apply keeps_if
    | apply keeps_bind; [ | intros ] ].
Qed.

Lemma keeps_step_with alu' :
  (∀ a b, keeps R (alu' "MUL" a b)) →
  (∀ a b, keeps R (alu' "CMP" a b)) →
  keeps R (step_with alu').
Proof.
  intros HMUL HCMP. unfold step_with.
  apply keeps_bind; [apply keeps_get_pc | intros p].
  apply keeps_bind; [apply keeps_ram_read | intros op].
  apply keeps_dispatch; auto.
Qed.

Lemma keeps_step : keeps R step.
Proof.
  apply keeps_step_with; [apply keeps_alu_MUL | apply keeps_alu_CMP].
Qed.

End keeps.

(** ** Three instances: the shape, the flags, a defined [E] *)

Global Instance same_flags_preorder : PreOrder same_flags.
Proof.
  split; [by intros s | intros s1 s2 s3; unfold same_flags; congruence].
Qed.

Global Instance carries_preorder P : PreOrder (carries P).
Proof. split; unfold carries; [intros s | intros s1 s2 s3]; auto. Qed.

Lemma step_shaped s s' r : step s = (s', r) → shaped s → shaped s'.
Proof.
  apply (keeps_step (carries shaped)); unfold carries, shaped; simpl;
    intros; intuition congruence.
Qed.

Lemma step_E_defined s s' r : step s = (s', r) → E_defined s → E_defined s'.
Proof.
  apply (keeps_step (carries E_defined)); unfold carries, E_defined; simpl;
    try done.
  intros s0 k v Hv [e [He He01]].
  destruct (decide (k = "E")) as [->|Hk].
  - exists v. by rewrite lookup_insert_eq.
  - exists e. by rewrite lookup_insert_ne.
Qed.

Lemma dispatch_same_flags p op s s' r :
  op ≠ CMP → dispatch alu p op s = (s', r) → flag s' = flag s.
Proof.
  intros Hop. apply (keeps_dispatch same_flags); unfold same_flags; simpl;
    try done.
  apply keeps_alu_MUL; unfold same_flags; simpl; try done; apply _.
Qed.

(** ** Fetching *)

Lemma step_fetch s op :
  fetch s = Some op → step s = dispatch alu (pc s) op s.
Proof.
  intros H. unfold fetch in H.
  cbv [step step_with bind get_pc ram_read ram_get get ret raise sub].
  by rewrite H.
Qed.

Lemma step_fetch_None s :
  fetch s = None → step s = (s, Raise IndexError).
Proof.
  intros H. unfold fetch in H.
  cbv [step step_with bind get_pc ram_read ram_get get ret raise sub].
  by rewrite H.
Qed.

Lemma exec_shaped s ops s' : exec s ops s' → shaped s → shaped s'.
Proof. induction 1; eauto using step_shaped. Qed.

Lemma exec_E_defined s ops s' : exec s ops s' → E_defined s → E_defined s'.
Proof. induction 1; eauto using step_E_defined. Qed.


(** ** Running a method body on a symbolic state *)

Lemma bind_Ok {A B} (m : M A) (k : A → M B) s s1 a :
  m s = (s1, Ok a) → bind m k s = k a s1.
Proof. unfold bind. by intros ->. Qed.

Lemma bind_Raise {A B} (m : M A) (k : A → M B) s s1 e :
  m s = (s1, Raise e) → bind m k s = (s1, Raise e).
Proof. unfold bind. by intros ->. Qed.

Lemma reg_get_Ok s i x : getitem (reg s) i = Some x → reg_get i s = (s, Ok x).
Proof. cbv [reg_get bind get sub ret]. by intros ->. Qed.

Lemma reg_get_Raise s i :
  getitem (reg s) i = None → reg_get i s = (s, Raise IndexError).
Proof. cbv [reg_get bind get sub raise]. by intros ->. Qed.

Lemma reg_set_Ok s i v r :
  setitem (reg s) i v = Some r → reg_set i v s = (set_reg r s, Ok tt).
Proof. cbv [reg_set bind get sub ret modify]. by intros ->. Qed.

Lemma ram_get_Ok s a v : getitem (ram s) a = Some v → ram_get a s = (s, Ok v).
Proof. cbv [ram_get bind get sub ret]. by intros ->. Qed.

Lemma ram_get_Raise s a :
  getitem (ram s) a = None → ram_get a s = (s, Raise IndexError).
Proof. cbv [ram_get bind get sub raise]. by intros ->. Qed.

Lemma ram_set_Ok s a v m :
  setitem (ram s) a v = Some m → ram_set a v s = (set_ram m s, Ok tt).
Proof. cbv [ram_set bind get sub ret modify]. by intros ->. Qed.

Lemma ram_set_Raise s a v :
  setitem (ram s) a v = None → ram_set a v s = (s, Raise IndexError).
Proof. cbv [ram_set bind get sub raise]. by intros ->. Qed.

Lemma ram_read_Ok s a v : getitem (ram s) a = Some v → ram_read a s = (s, Ok v).
Proof. apply ram_get_Ok. Qed.

Lemma ram_read_Raise s a :
  getitem (ram s) a = None → ram_read a s = (s, Raise IndexError).
Proof. apply ram_get_Raise. Qed.

Lemma ram_write_Ok s v a m :
  setitem (ram s) a v = Some m → ram_write v a s = (set_ram m s, Ok tt).
Proof. apply ram_set_Ok. Qed.

Lemma ram_write_Raise s v a :
  setitem (ram s) a v = None → ram_write v a s = (s, Raise IndexError).
Proof. apply ram_set_Raise. Qed.

Lemma flag_get_Ok s k v : flag s !! k = Some v → flag_get k s = (s, Ok v).
Proof. cbv [flag_get bind get ret]. by intros ->. Qed.

Lemma flag_get_Raise s k :
  flag s !! k = None → flag_get k s = (s, Raise (KeyError k)).
Proof. cbv [flag_get bind get raise]. by intros ->. Qed.

Lemma flag_set_Ok s k v :
  flag_set k v s = (set_flag (<[k := v]> (flag s)) s, Ok tt).
Proof. done. Qed.

Lemma pc_add_Ok s n : pc_add n s = (set_pc (pc s + n) s, Ok tt).
Proof. done. Qed.

Lemma pc_set_Ok s p : pc_set p s = (set_pc p s, Ok tt).
Proof. done. Qed.

Lemma print_Ok s line : print line s = (set_stdout (stdout s ++ [line]) s, Ok tt).
Proof. done. Qed.

(** Run the next statement of a sequence when the facts it needs are among
    the hypotheses. *)
Ltac next_m :=
  first
    [ erewrite bind_Ok;
      [ | first [ apply reg_get_Ok | apply reg_set_Ok | apply ram_read_Ok
                | apply ram_write_Ok | apply ram_get_Ok | apply ram_set_Ok
                | apply flag_get_Ok | apply flag_set_Ok
                | apply pc_add_Ok | apply pc_set_Ok | apply print_Ok ];
          simpl; eassumption || reflexivity ]
    | erewrite bind_Raise;
      [ | first [ apply reg_get_Raise | apply ram_read_Raise
                | apply ram_write_Raise | apply flag_get_Raise ];
          simpl; eassumption ] ].

(** ** The ALU *)

Lemma alu_CMP_unfold a b :
  alu "CMP" a b =
    ((x <-- reg_get a ;; y <-- reg_get b ;;
      if bool_decide (x < y) then flag_set "L" 1 else flag_set "L" 0) ;;;
     (x <-- reg_get a ;; y <-- reg_get b ;;
      if bool_decide (x > y) then flag_set "G" 1 else flag_set "G" 0) ;;;
     x <-- reg_get a ;; y <-- reg_get b ;;
     if bool_decide (x = y) then flag_set "E" 1 else flag_set "E" 0).
Proof. reflexivity. Qed.

Lemma alu_MUL_unfold a b :
  alu "MUL" a b = (x <-- reg_get a ;; y <-- reg_get b ;; reg_set a (x * y)).
Proof. reflexivity. Qed.

Lemma flag_set_bit s k (b : bool) :
  (if b then flag_set k 1 else flag_set k 0) s
  = (set_flag (<[k := bit b]> (flag s)) s, Ok tt).
Proof. by destruct b. Qed.

Lemma alu_CMP_eq s a b x y :
  getitem (reg s) a = Some x → getitem (reg s) b = Some y →
  alu "CMP" a b s = (set_flag (cmp_flags x y (flag s)) s, Ok tt).
Proof.
  intros Ha Hb. rewrite alu_CMP_unfold.
  erewrite bind_Ok; [|do 2 next_m; apply flag_set_bit].
  erewrite bind_Ok; [|do 2 next_m; apply flag_set_bit].
  do 2 next_m. by rewrite flag_set_bit.
Qed.

(** A [CMP] that returns has read both registers. *)
Lemma alu_CMP_Ok s a b s' :
  alu "CMP" a b s = (s', Ok tt) →
  ∃ x y, getitem (reg s) a = Some x ∧ getitem (reg s) b = Some y.
Proof.
  rewrite alu_CMP_unfold.
  destruct (getitem (reg s) a) as [x|] eqn:Ha;
    [|by erewrite bind_Raise; [|by next_m]].
  destruct (getitem (reg s) b) as [y|] eqn:Hb;
    [|by erewrite bind_Raise; [|by do 2 next_m]].
  eauto.
Qed.

Lemma alu_MUL_eq s a b x y :
  getitem (reg s) a = Some x → getitem (reg s) b = Some y →
  ∃ r, setitem (reg s) a (x * y) = Some r ∧
       alu "MUL" a b s = (set_reg r s, Ok tt).
Proof.
  intros Ha Hb.
  destruct (setitem (reg s) a (x * y)) as [r|] eqn:Hr.
  - exists r. split; [done|].
    rewrite alu_MUL_unfold. do 2 next_m. by apply reg_set_Ok.
  - assert (is_Some (setitem (reg s) a (x * y))) as [? ?]; [|congruence].
    apply setitem_is_Some. eauto.
Qed.

Lemma same_cell_nonneg {A} (l : list A) i j :
  0 ≤ i < Z.of_nat (length l) → 0 ≤ j < Z.of_nat (length l) →
  same_cell l i j ↔ i = j.
Proof.
  intros Hi Hj. unfold same_cell. rewrite !py_index_nonneg by done.
  split; [intros [= H]; lia | by intros ->].
Qed.

(** C4. After the ALU operation [CMP] on two registers holding [x] and [y],
    the flag [E] is set iff [x = y], [L] iff [x < y], [G] iff [x > y];
    exactly one of the three is set, each of them holds 1 or 0, and
    registers, memory and program counter are as before. *)
Theorem alu_CMP_flags s a b x y :
  getitem (reg s) a = Some x → getitem (reg s) b = Some y →
  ∃ s', alu "CMP" a b s = (s', Ok tt) ∧
    (flag_is_set s' "E" ↔ x = y) ∧
    (flag_is_set s' "L" ↔ x < y) ∧
    (flag_is_set s' "G" ↔ x > y) ∧
    exactly_one (flag_is_set s' "L") (flag_is_set s' "G") (flag_is_set s' "E") ∧
    (∀ k, k ∈ ["L"; "G"; "E"] → flag_is_set s' k ∨ flag_is_clear s' k) ∧
    reg s' = reg s ∧ ram s' = ram s ∧ pc s' = pc s.
Proof.
  intros Ha Hb. eexists. split; [by apply alu_CMP_eq|].
  unfold exactly_one, flag_is_set, flag_is_clear, cmp_flags, bit. simpl.
  assert (∀ k, k ∈ ["L"; "G"; "E"] → k = "L" ∨ k = "G" ∨ k = "E") as Hk.
  { intros k. rewrite !elem_of_cons, elem_of_nil. tauto. }
  split_and!; try done.
  - rewrite lookup_insert_eq. case_bool_decide; naive_solver.
  - rewrite !lookup_insert_ne, lookup_insert_eq by done.
    case_bool_decide; naive_solver.
  - rewrite lookup_insert_ne, lookup_insert_eq by done.
    case_bool_decide; naive_solver.
  - rewrite lookup_insert_eq, (lookup_insert_ne _ "E" "G") by done.
    rewrite lookup_insert_eq, !lookup_insert_ne, lookup_insert_eq by done.
    repeat case_bool_decide; try lia;
      first [ left; split_and!; congruence
            | right; left; split_and!; congruence
            | right; right; split_and!; congruence ].
  - intros k [->| [->| ->]]%Hk.
    + rewrite !lookup_insert_ne, lookup_insert_eq by done.
      case_bool_decide; auto.
    + rewrite lookup_insert_ne, lookup_insert_eq by done.
      case_bool_decide; auto.
    + rewrite lookup_insert_eq. case_bool_decide; auto.
Qed.

Lemma alu_CMP_flags_witness :
  ∃ s', alu "CMP" 0 1 (set_reg [3; 5; 0; 0; 0; 0; 0; 0] init) = (s', Ok tt) ∧
    (flag_is_set s' "E" ↔ 3 = 5) ∧
    (flag_is_set s' "L" ↔ 3 < 5) ∧
    (flag_is_set s' "G" ↔ 3 > 5) ∧
    exactly_one (flag_is_set s' "L") (flag_is_set s' "G") (flag_is_set s' "E") ∧
    (∀ k, k ∈ ["L"; "G"; "E"] → flag_is_set s' k ∨ flag_is_clear s' k) ∧
    reg s' = [3; 5; 0; 0; 0; 0; 0; 0] ∧ ram s' = ram init ∧ pc s' = 0.
Proof.
  apply (alu_CMP_flags (set_reg [3; 5; 0; 0; 0; 0; 0; 0] init) 0 1 3 5);
    reflexivity.
Defined.

(** C9, as the code has it.  The ALU operation [MUL] on registers holding
    [x] and [y] writes [x * y] into [reg[a]]; every register that is not
    [reg[a]] keeps its value, so [reg[b]] does when [b] names another
    register than [a]; memory, program counter, flags and output are
    untouched. *)
Theorem alu_MUL_frame s a b x y :
  getitem (reg s) a = Some x → getitem (reg s) b = Some y →
  ∃ s', alu "MUL" a b s = (s', Ok tt) ∧
    getitem (reg s') a = Some (x * y) ∧
    (¬ same_cell (reg s) b a → getitem (reg s') b = Some y) ∧
    (∀ c, ¬ same_cell (reg s) c a → getitem (reg s') c = getitem (reg s) c) ∧
    length (reg s') = length (reg s) ∧
    ram s' = ram s ∧ pc s' = pc s ∧ flag s' = flag s ∧ stdout s' = stdout s.
Proof.
  intros Ha Hb. destruct (alu_MUL_eq s a b x y Ha Hb) as (r & Hr & ->).
  eexists. split; [done|]. simpl. split_and!; try done.
  - by eapply getitem_setitem_same.
  - intros Hne. rewrite <- Hb. by eapply getitem_setitem_other.
  - intros c Hne. by eapply getitem_setitem_other.
  - by eapply setitem_length.
Qed.

Lemma alu_MUL_frame_witness :
  ∃ s', alu "MUL" 0 1 (set_reg [8; 9; 0; 0; 0; 0; 0; 0] init) = (s', Ok tt) ∧
    getitem (reg s') 0 = Some 72 ∧ getitem (reg s') 1 = Some 9.
Proof.
  destruct (alu_MUL_frame (set_reg [8; 9; 0; 0; 0; 0; 0; 0] init) 0 1 8 9
              eq_refl eq_refl) as (s' & Hs & Ha & Hb & _).
  exists s'. split_and!; [exact Hs | exact Ha |].
  apply Hb. unfold same_cell. vm_compute. discriminate.
Defined.

(** C9, as the claim has it, fails when both operands are one register:
    [MUL R0,R0] with 2 in [R0] leaves 4 there, so [reg[b]] has changed. *)
Lemma alu_MUL_same_register :
  let s := set_reg [2; 0; 0; 0; 0; 0; 0; 0] init in
  getitem (reg s) 0 = Some 2 ∧
  ∃ s', alu "MUL" 0 0 s = (s', Ok tt) ∧
    getitem (reg s') 0 = Some 4 ∧ getitem (reg s') 0 ≠ getitem (reg s) 0.
Proof.
  simpl. split; [reflexivity|]. eexists. split; [reflexivity|].
  split; [reflexivity|]. vm_compute. discriminate.
Qed.

(** ** Memory access *)

(** C10. With 256 cells, [ram_read] and [ram_write] succeed at every address
    from -256 to 255; an address [a] from -256 to -1 reads and writes cell
    [a + 256].  Register 7 starts at 0, so the first decrement of the stack
    pointer leaves -1 there, and address -1 is cell 255. *)
Theorem ram_total_negative_alias s :
  length (ram s) = 256%nat →
  (∀ a, -256 ≤ a ≤ 255 → ∃ v, ram_read a s = (s, Ok v)) ∧
  (∀ a v, -256 ≤ a ≤ 255 → ∃ m, ram_write v a s = (set_ram m s, Ok tt)) ∧
  (∀ a, -256 ≤ a ≤ -1 →
     ∃ v, ram s !! Z.to_nat (a + 256) = Some v ∧ ram_read a s = (s, Ok v)) ∧
  (∀ a v, -256 ≤ a ≤ -1 →
     ram_write v a s
     = (set_ram (<[Z.to_nat (a + 256) := v]> (ram s)) s, Ok tt)) ∧
  getitem (reg init) SP = Some 0 ∧
  (getitem (reg s) SP = Some 0 →
     ∃ s1, reg_isub SP 1 s = (s1, Ok tt) ∧
       reg_get SP s1 = (s1, Ok (-1)) ∧ ram s1 = ram s ∧
       ∃ v, ram s !! 255%nat = Some v ∧ ram_read (-1) s1 = (s1, Ok v)).
Proof.
  intros Hlen.
  assert (∀ a, -256 ≤ a ≤ -1 →
     ∃ v, ram s !! Z.to_nat (a + 256) = Some v ∧ ram_read a s = (s, Ok v))
    as Hneg.
  { intros a Ha.
    destruct (lookup_lt_is_Some_2 (ram s) (Z.to_nat (a + 256))) as [v Hv];
      [lia|].
    exists v. split; [done|]. apply ram_read_Ok. unfold getitem.
    rewrite py_index_neg by lia. simpl. by rewrite Hlen. }
  split_and!.
  - intros a Ha.
    destruct (getitem_is_Some (ram s) a) as [_ [v Hv]]; [lia|].
    exists v. by apply ram_read_Ok.
  - intros a v Ha.
    destruct (setitem_is_Some (ram s) a v) as [_ [m Hm]].
    { apply getitem_is_Some. lia. }
    exists m. by apply ram_write_Ok.
  - done.
  - intros a v Ha. apply ram_write_Ok. unfold setitem.
    rewrite py_index_neg by lia. simpl. by rewrite Hlen.
  - reflexivity.
  - intros Hsp.
    destruct (setitem_is_Some (reg s) SP (0 - 1)) as [_ [r Hr]]; [by eexists|].
    exists (set_reg r s). split_and!.
    + unfold reg_isub. next_m. by apply reg_set_Ok.
    + apply reg_get_Ok. simpl. by eapply getitem_setitem_same.
    + done.
    + destruct (Hneg (-1)) as (v & Hv & Hread); [lia|].
      exists v. split; [done|]. apply ram_read_Ok. simpl.
      unfold getitem. rewrite py_index_neg by lia. simpl.
      by rewrite Hlen.
Qed.

Lemma ram_total_negative_alias_witness :
  ram_read (-1) init = (init, Ok 0) ∧
  ram_write 42 (-256) init = (set_ram (<[0%nat := 42]> (ram init)) init, Ok tt) ∧
  ∃ s1, reg_isub SP 1 init = (s1, Ok tt) ∧ reg_get SP s1 = (s1, Ok (-1)).
Proof.
  destruct (ram_total_negative_alias init eq_refl)
    as (_ & _ & Hread & Hwrite & Hinit & Hdec).
  split_and!.
  - destruct (Hread (-1)) as (v & Hv & ->); [lia|].
    vm_compute in Hv. by injection Hv as <-.
  - apply (Hwrite (-256) 42). lia.
  - destruct (Hdec Hinit) as (s1 & H1 & H2 & _). by exists s1.
Defined.

(** ** Unknown opcodes *)

Lemma not_in_table op :
  op ∉ instruction_table →
  op ≠ LDI ∧ op ≠ PRN ∧ op ≠ MUL ∧ op ≠ POP ∧ op ≠ PUSH ∧ op ≠ CALL ∧
  op ≠ RET ∧ op ≠ CMP ∧ op ≠ JMP ∧ op ≠ JNE ∧ op ≠ JEQ ∧ op ≠ HLT.
Proof.
  unfold instruction_table. rewrite !not_elem_of_cons. tauto.
Qed.

Ltac not_in_table :=
  let H := fresh in
  unfold instruction_table; intros H;
  repeat (apply elem_of_cons in H as [H|H]; [discriminate H|]);
  by apply elem_of_nil in H.

Lemma dispatch_unknown alu' p op :
  op ∉ instruction_table →
  dispatch alu' p op = (print "ERROR: Unknown command" ;;; sys_exit 1).
Proof.
  intros H%not_in_table. unfold dispatch.
  by rewrite !bool_decide_eq_false_2 by tauto.
Qed.

(** C6, as the code has it.  When the byte at [pc] is none of the twelve
    opcodes, the turn prints the one fixed line "ERROR: Unknown command",
    which shows no number, and exits with status 1; so does [run], whatever
    the fuel. *)
Theorem unknown_opcode_exits s op fuel :
  fetch s = Some op → op ∉ instruction_table →
  let s' := set_stdout (stdout s ++ ["ERROR: Unknown command"]) s in
  step s = (s', Raise (SystemExit 1)) ∧
  run (S fuel) s = (s', Raise (SystemExit 1)) ∧
  exit_status (SystemExit 1) ≠ 0 ∧
  has_digit "ERROR: Unknown command" = false.
Proof.
  intros Hf Hop s'.
  assert (step s = (s', Raise (SystemExit 1))) as Hstep.
  { rewrite (step_fetch _ _ Hf), dispatch_unknown by done. reflexivity. }
  split_and!; [done | | done | reflexivity].
  simpl. by erewrite bind_Raise.
Qed.

Lemma unknown_opcode_exits_witness :
  step init
  = (set_stdout ["ERROR: Unknown command"] init, Raise (SystemExit 1)) ∧
  run 1 init
  = (set_stdout ["ERROR: Unknown command"] init, Raise (SystemExit 1)).
Proof.
  assert (0 ∉ instruction_table) as H0 by not_in_table.
  destruct (unknown_opcode_exits init 0 0 eq_refl H0) as (H1 & H2 & _).
  by split.
Defined.

(** C6, as the claim has it, fails: a program that uses the LS-8 [ADD]
    opcode 160, which this table lacks, stops at [pc = 6] with a line that
    shows neither 160 nor 6. *)
Lemma unknown_opcode_diagnostic_silent :
  let s := fst (run 2 (boot [LDI; 0; 1; LDI; 1; 2; 160; 0; 1; HLT])) in
  fetch s = Some 160 ∧ pc s = 6 ∧ (160 ∉ instruction_table) ∧
  ∃ s', step s = (s', Raise (SystemExit 1)) ∧
    stdout s' = ["ERROR: Unknown command"] ∧
    ∀ line, line ∈ stdout s' →
      mentions line 160 = false ∧ mentions line 6 = false.
Proof.
  cbv zeta.
  set (s := fst (run 2 (boot [LDI; 0; 1; LDI; 1; 2; 160; 0; 1; HLT]))).
  assert (stdout (fst (step s)) = ["ERROR: Unknown command"]) as Hout
    by (vm_compute; reflexivity).
  split; [vm_compute; reflexivity|].
  split; [vm_compute; reflexivity|].
  split; [not_in_table|].
  exists (fst (step s)).
  split; [vm_compute; reflexivity|].
  split; [exact Hout|].
  intros line Hline. rewrite Hout in Hline.
  apply list_elem_of_singleton in Hline as ->.
  split; vm_compute; reflexivity.
Qed.

(** ** The ALU calls that [run] makes *)

Section alu_safe.

Lemma alu_safe_ret {A} (a : A) : alu_safe (ret a).
Proof. by intros s. Qed.

Lemma alu_safe_modify f : alu_safe (modify f).
Proof. by intros s. Qed.

Lemma alu_safe_get : alu_safe get.
Proof. by intros s. Qed.

Lemma alu_safe_raise {A} e : e ≠ alu_unsupported → alu_safe (raise (A:=A) e).
Proof. intros He s. split; simpl; congruence. Qed.

Lemma alu_safe_sub {A} (o : option A) : alu_safe (sub o).
Proof. destruct o; [apply alu_safe_ret | by apply alu_safe_raise]. Qed.

Lemma alu_safe_bind {A B} (m : M A) (k : A → M B) :
  alu_safe m → (∀ a, alu_safe (k a)) → alu_safe (bind m k).
Proof.
  intros Hm Hk s. unfold bind. specialize (Hm s).
  destruct (m s) as [s1 [a|e|]]; simpl in *.
  - apply Hk.
  - destruct Hm as [Hm _]. split; congruence.
  - by destruct Hm as [_ Hm].
Qed.

Lemma alu_safe_if {A} (b : bool) (m1 m2 : M A) :
  alu_safe m1 → alu_safe m2 → alu_safe (if b then m1 else m2).
Proof. by destruct b. Qed.

Lemma alu_safe_flag_get k : alu_safe (flag_get k).
Proof.
  intros s. unfold flag_get, bind, get. destruct (flag s !! k); by split.
Qed.

Local Hint Resolve alu_safe_ret alu_safe_modify alu_safe_get alu_safe_sub
  alu_safe_flag_get : alu_safe.

Ltac alu_safe_tac :=
  repeat first
    [ by auto with alu_safe
    | by apply alu_safe_raise
    | apply alu_safe_if
    | apply alu_safe_bind; [ | intros ] ].

Lemma alu_safe_alu_MUL a b : alu_safe (alu "MUL" a b).
Proof.
  rewrite alu_MUL_unfold. unfold reg_get, reg_set. alu_safe_tac.
Qed.

Lemma alu_safe_alu_CMP a b : alu_safe (alu "CMP" a b).
Proof.
  rewrite alu_CMP_unfold. unfold reg_get, flag_set. alu_safe_tac.
Qed.

Lemma alu_safe_dispatch alu' p op :
  (∀ a b, alu_safe (alu' "MUL" a b)) →
  (∀ a b, alu_safe (alu' "CMP" a b)) →
  alu_safe (dispatch alu' p op).
Proof.
  intros HMUL HCMP.
  unfold dispatch, ram_read, ram_write, ram_get, ram_set, reg_iadd,
    reg_isub, reg_get, reg_set, print_int, print, pc_add, pc_set, get_pc,
    sys_exit.
  alu_safe_tac.
Qed.

Lemma alu_safe_step : alu_safe step.
Proof.
  unfold step, step_with, get_pc, ram_read, ram_get.
  repeat first
    [ by auto with alu_safe
    | apply alu_safe_dispatch; [apply alu_safe_alu_MUL | apply alu_safe_alu_CMP]
    | apply alu_safe_bind; [ | intros ] ].
Qed.

Lemma alu_safe_run fuel : alu_safe (run fuel).
Proof.
  induction fuel as [|n IH]; simpl; [apply alu_safe_ret|].
  apply alu_safe_bind; [apply alu_safe_step | done].
Qed.

End alu_safe.

(** The turn asks [self.alu] for ["MUL"] and ["CMP"] and for nothing else:
    it is the same turn over any method that agrees with [alu] on these
    two. *)
Lemma dispatch_alu_ops alu' p op s :
  (∀ a b s, alu' "MUL" a b s = alu "MUL" a b s) →
  (∀ a b s, alu' "CMP" a b s = alu "CMP" a b s) →
  dispatch alu' p op s = dispatch alu p op s.
Proof.
  intros HMUL HCMP. unfold dispatch.
  repeat case_bool_decide; try done; cbv [bind];
    (destruct (ram_read (p + 1) s) as [s1 [a|e|]]; [|done..]);
    (destruct (ram_read (p + 2) s1) as [s2 [b|e|]]; [|done..]).
  - by rewrite HMUL.
  - by rewrite HCMP.
Qed.

Lemma step_with_alu_ops alu' s :
  (∀ a b s, alu' "MUL" a b s = alu "MUL" a b s) →
  (∀ a b s, alu' "CMP" a b s = alu "CMP" a b s) →
  step_with alu' s = step s.
Proof.
  intros HMUL HCMP. unfold step, step_with. cbv [bind].
  destruct (get_pc s) as [s1 [p|e|]]; [|done..].
  destruct (ram_read p s1) as [s2 [op|e|]]; [|done..].
  by apply dispatch_alu_ops.
Qed.

(** No run stores a float in a register: the division of [alu] is never
    called, and the machine stays within the integers. *)
Lemma run_never_float fuel s : snd (run fuel s) ≠ Float.
Proof. apply alu_safe_run. Qed.

(** C8.  [run] calls [alu] only under the names ["MUL"] and ["CMP"]: the
    turn is unchanged when [alu] is replaced by any method that agrees with
    it on these two names.  Neither of the two reaches the last branch of
    [alu], and no run, whatever the memory and the fuel, ends with its
    exception. *)
Theorem run_never_unsupported :
  (∀ alu' s,
     (∀ a b s, alu' "MUL" a b s = alu "MUL" a b s) →
     (∀ a b s, alu' "CMP" a b s = alu "CMP" a b s) →
     step_with alu' s = step s) ∧
  (∀ a b s, snd (alu "MUL" a b s) ≠ Raise alu_unsupported) ∧
  (∀ a b s, snd (alu "CMP" a b s) ≠ Raise alu_unsupported) ∧
  (∀ s, snd (step s) ≠ Raise alu_unsupported) ∧
  (∀ fuel s, snd (run fuel s) ≠ Raise alu_unsupported) ∧
  (∀ a b s, snd (alu "MOD" a b s) = Raise alu_unsupported).
Proof.
  split_and!.
  - intros. by apply step_with_alu_ops.
  - intros a b s. apply alu_safe_alu_MUL.
  - intros a b s. apply alu_safe_alu_CMP.
  - intros s. apply alu_safe_step.
  - intros fuel s. apply alu_safe_run.
  - reflexivity.
Qed.

(** ** Conditional jumps and the flag [E] *)

Lemma bind_Ok_inv {A B} (m : M A) (k : A → M B) s s' b :
  bind m k s = (s', Ok b) → ∃ s1 a, m s = (s1, Ok a) ∧ k a s1 = (s', Ok b).
Proof. unfold bind. destruct (m s) as [s1 [a|e|]]; [eauto | done..]. Qed.

Lemma ram_read_Ok_inv s a s' v :
  ram_read a s = (s', Ok v) → s' = s ∧ getitem (ram s) a = Some v.
Proof.
  cbv [ram_read ram_get bind get sub ret raise].
  destruct (getitem (ram s) a); intros [= <- <-] || intros [=]; done.
Qed.

Lemma dispatch_CMP alu' p :
  dispatch alu' p CMP
  = (reg_a <-- ram_read (p + 1) ;; reg_b <-- ram_read (p + 2) ;;
     alu' "CMP" reg_a reg_b ;;; pc_add 3).
Proof. reflexivity. Qed.

Lemma dispatch_JEQ alu' p :
  dispatch alu' p JEQ
  = (reg_a <-- ram_read (p + 1) ;; e <-- flag_get "E" ;;
     if bool_decide (e = 1) then target <-- reg_get reg_a ;; pc_set target
     else pc_add 2).
Proof. reflexivity. Qed.

Lemma dispatch_JNE alu' p :
  dispatch alu' p JNE
  = (reg_a <-- ram_read (p + 1) ;; e <-- flag_get "E" ;;
     if bool_decide (e = 0) then target <-- reg_get reg_a ;; pc_set target
     else pc_add 2).
Proof. reflexivity. Qed.

(** A turn that executes [CMP] leaves [E] defined. *)
Lemma step_CMP_E_defined s s' :
  fetch s = Some CMP → step s = (s', Ok tt) → E_defined s'.
Proof.
  intros Hf Hs. rewrite (step_fetch _ _ Hf), dispatch_CMP in Hs.
  apply bind_Ok_inv in Hs as (s1 & a & [-> _]%ram_read_Ok_inv & Hs).
  apply bind_Ok_inv in Hs as (s2 & b & [-> _]%ram_read_Ok_inv & Hs).
  apply bind_Ok_inv in Hs as (s3 & [] & Halu & Hs).
  destruct (alu_CMP_Ok _ _ _ _ Halu) as (x & y & Hx & Hy).
  rewrite (alu_CMP_eq _ _ _ _ _ Hx Hy) in Halu. injection Halu as <-.
  rewrite pc_add_Ok in Hs. injection Hs as <-.
  exists (bit (bool_decide (x = y))). simpl. unfold cmp_flags.
  rewrite lookup_insert_eq. split; [done|].
  unfold bit. case_bool_decide; auto.
Qed.

Lemma exec_CMP_E_defined s0 ops s :
  exec s0 ops s → CMP ∈ ops → E_defined s.
Proof.
  induction 1 as [|s op s' ops s'' Hf Hs Hex IH]; intros Hin.
  - by apply elem_of_nil in Hin.
  - apply elem_of_cons in Hin as [<-|Hin]; [|by apply IH].
    eapply exec_E_defined; [done|]. by eapply step_CMP_E_defined.
Qed.

Section branches.
Context (s : cpu) (r e : Z).
Hypothesis Hoperand : getitem (ram s) (pc s + 1) = Some r.
Hypothesis HE : flag s !! "E" = Some e.

Lemma step_JEQ_taken t :
  fetch s = Some JEQ → e = 1 → getitem (reg s) r = Some t →
  step s = (set_pc t s, Ok tt).
Proof.
  intros Hf -> Ht. rewrite (step_fetch _ _ Hf), dispatch_JEQ.
  do 2 next_m. rewrite bool_decide_eq_true_2 by done. by next_m.
Qed.

Lemma step_JEQ_not_taken :
  fetch s = Some JEQ → e ≠ 1 → step s = (set_pc (pc s + 2) s, Ok tt).
Proof.
  intros Hf He. rewrite (step_fetch _ _ Hf), dispatch_JEQ.
  do 2 next_m. by rewrite bool_decide_eq_false_2 by done.
Qed.

Lemma step_JNE_taken t :
  fetch s = Some JNE → e = 0 → getitem (reg s) r = Some t →
  step s = (set_pc t s, Ok tt).
Proof.
  intros Hf -> Ht. rewrite (step_fetch _ _ Hf), dispatch_JNE.
  do 2 next_m. rewrite bool_decide_eq_true_2 by done. by next_m.
Qed.

Lemma step_JNE_not_taken :
  fetch s = Some JNE → e ≠ 0 → step s = (set_pc (pc s + 2) s, Ok tt).
Proof.
  intros Hf He. rewrite (step_fetch _ _ Hf), dispatch_JNE.
  do 2 next_m. by rewrite bool_decide_eq_false_2 by done.
Qed.

End branches.

(** C5, as the code has it.  In a state reached by turns of which at least
    one executed [CMP], the flag [E] holds 1 (set) or 0 (clear).  With a
    readable operand byte
    [r], [JEQ] sets [pc] to [reg[r]] when [E] is set and adds 2 to [pc] when
    it is clear; [JNE] sets [pc] to [reg[r]] when [E] is clear and adds 2 to
    [pc] when it is set.  Nothing but [pc] changes. *)
Theorem branch_after_CMP s0 ops s r :
  exec s0 ops s → CMP ∈ ops → getitem (ram s) (pc s + 1) = Some r →
  ∃ e, flag s !! "E" = Some e ∧ (e = 1 ∨ e = 0) ∧
    (fetch s = Some JEQ →
       (e = 1 → ∀ t, getitem (reg s) r = Some t →
                     step s = (set_pc t s, Ok tt)) ∧
       (e = 0 → step s = (set_pc (pc s + 2) s, Ok tt))) ∧
    (fetch s = Some JNE →
       (e = 0 → ∀ t, getitem (reg s) r = Some t →
                     step s = (set_pc t s, Ok tt)) ∧
       (e = 1 → step s = (set_pc (pc s + 2) s, Ok tt))).
Proof.
  intros Hex Hin Hr.
  destruct (exec_CMP_E_defined _ _ _ Hex Hin) as (e & He & He01).
  exists e. split_and!; [done | tauto | |].
  - intros Hf. split.
    + intros -> t Ht. by eapply step_JEQ_taken.
    + intros ->. by eapply step_JEQ_not_taken.
  - intros Hf. split.
    + intros -> t Ht. by eapply step_JNE_taken.
    + intros ->. by eapply step_JNE_not_taken.
Qed.

Lemma turns_exec fuel s ops s' :
  turns fuel s = Some (ops, s') → exec s ops s'.
Proof.
  revert s ops s'. induction fuel as [|n IH]; intros s ops s'; simpl.
  - intros [= <- <-]. constructor.
  - destruct (fetch s) as [op|] eqn:Hf; [|done].
    destruct (step s) as [s1 [[]|e|]] eqn:Hs; [|done..].
    destruct (turns n s1) as [[ops1 s2]|] eqn:Ht; [|done].
    intros [= <- <-]. econstructor; eauto.
Qed.

Lemma branch_after_CMP_witness :
  let s := fst (run 4 (boot [LDI; 0; 5; LDI; 1; 5; CMP; 0; 1; LDI; 2; 14;
                             JEQ; 2; HLT])) in
  fetch s = Some JEQ ∧ step s = (set_pc 14 s, Ok tt).
Proof.
  cbv zeta.
  set (s0 := boot [LDI; 0; 5; LDI; 1; 5; CMP; 0; 1; LDI; 2; 14; JEQ; 2; HLT]).
  set (s := fst (run 4 s0)).
  assert (exec s0 [LDI; LDI; CMP; LDI] s) as Hex
    by (apply (turns_exec 4); vm_compute; reflexivity).
  assert (CMP ∈ [LDI; LDI; CMP; LDI]) as Hin
    by (do 2 (apply elem_of_cons; right); apply elem_of_cons; by left).
  assert (getitem (ram s) (pc s + 1) = Some 2) as Hr
    by (vm_compute; reflexivity).
  assert (fetch s = Some JEQ) as Hf by (vm_compute; reflexivity).
  destruct (branch_after_CMP s0 _ s 2 Hex Hin Hr) as (e & He & _ & HJEQ & _).
  split; [exact Hf|].
  assert (flag s !! "E" = Some 1) as He1 by (vm_compute; reflexivity).
  rewrite He1 in He. injection He as <-.
  destruct (HJEQ Hf) as [Htaken _].
  apply Htaken; [reflexivity|]. vm_compute; reflexivity.
Defined.

(** C5, as the claim has it, fails in two ways after a [CMP].  A [JEQ] in
    the last cell, reached with [E] clear, has no operand byte: the turn
    raises [IndexError] and [pc] stays at 255 instead of advancing by 2.  A
    [JEQ] with [E] set whose operand byte is 200 names no register: the turn
    raises [IndexError] instead of jumping. *)
Lemma branch_after_CMP_needs_operands :
  let s0 := boot ([LDI; 0; 1; CMP; 0; 1; LDI; 2; 255; JMP; 2]
                    ++ replicate 244 0 ++ [JEQ]) in
  let s := fst (run 4 s0) in
  let t0 := boot [CMP; 0; 1; JEQ; 200] in
  let t := fst (run 1 t0) in
  (exec s0 [LDI; CMP; LDI; JMP] s ∧ flag s !! "E" = Some 0 ∧
   pc s = 255 ∧ fetch s = Some JEQ ∧ step s = (s, Raise IndexError)) ∧
  (exec t0 [CMP] t ∧ flag t !! "E" = Some 1 ∧ fetch t = Some JEQ ∧
   getitem (ram t) (pc t + 1) = Some 200 ∧ step t = (t, Raise IndexError)).
Proof.
  cbv zeta.
  set (s0 := boot ([LDI; 0; 1; CMP; 0; 1; LDI; 2; 255; JMP; 2]
                     ++ replicate 244 0 ++ [JEQ])).
  set (t0 := boot [CMP; 0; 1; JEQ; 200]).
  split.
  - split; [apply (turns_exec 4); vm_compute; reflexivity|].
    do 3 (split; [vm_compute; reflexivity|]). vm_compute; reflexivity.
  - split; [apply (turns_exec 1); vm_compute; reflexivity|].
    do 3 (split; [vm_compute; reflexivity|]). vm_compute; reflexivity.
Qed.

(** ** Conditional jumps before any [CMP] *)


Lemma boot_shaped nums : shaped (boot nums).
Proof.
  unfold boot, load. destruct (load_from 0 nums init) as [s r] eqn:H.
  apply (keeps_load_from (carries shaped)) in H; [by apply H, init_shaped|].
  unfold carries, shaped. simpl. intros; intuition congruence.
Qed.

(** Every state that [run] reaches from a loaded machine has eight
    registers and 256 cells. *)
Lemma exec_boot_shaped nums ops s : exec (boot nums) ops s → shaped s.
Proof. intros Hex. eapply exec_shaped; [done | apply boot_shaped]. Qed.




(** ** The stack: [PUSH], [POP], [CALL], [RET]

    [ram_write] is declared as [ram_write(mdr, mar)], value first; [PUSH] and
    [CALL] call it as [ram_write(stack_addr, val)] and
    [ram_write(stack_addr, return_addr)], address first.  So the cell that
    is written is the one whose address is the value, and what it receives
    is the stack address. *)

Lemma reg_isub_Ok s i n x r :
  getitem (reg s) i = Some x → setitem (reg s) i (x - n) = Some r →
  reg_isub i n s = (set_reg r s, Ok tt).
Proof. intros Hx Hr. unfold reg_isub. next_m. by apply reg_set_Ok. Qed.

Lemma dispatch_PUSH alu' p :
  dispatch alu' p PUSH
  = (reg_isub SP 1 ;;; stack_addr <-- reg_get SP ;;
     reg_num <-- ram_read (p + 1) ;; val <-- reg_get reg_num ;;
     ram_write stack_addr val ;;; pc_add 2).
Proof. reflexivity. Qed.

Lemma dispatch_CALL alu' p :
  dispatch alu' p CALL
  = (reg_isub SP 1 ;;; stack_addr <-- reg_get SP ;;
     ram_write stack_addr (p + 2) ;;;
     reg_num <-- ram_read (p + 1) ;; target <-- reg_get reg_num ;;
     pc_set target).
Proof. reflexivity. Qed.

(** What a [PUSH] of register [r] does: the stack pointer goes from [sp] to
    [sp - 1], and the cell at address [v], the value of the register,
    receives [sp - 1]. *)
Lemma step_PUSH s sp regs r v m :
  fetch s = Some PUSH →
  getitem (reg s) SP = Some sp → setitem (reg s) SP (sp - 1) = Some regs →
  getitem (ram s) (pc s + 1) = Some r → getitem regs r = Some v →
  setitem (ram s) v (sp - 1) = Some m →
  step s = (set_pc (pc s + 2) (set_ram m (set_reg regs s)), Ok tt).
Proof.
  intros Hf Hsp Hregs Hr Hv Hm.
  assert (getitem regs SP = Some (sp - 1)) as Hsp'
    by (by eapply getitem_setitem_same).
  rewrite (step_fetch _ _ Hf), dispatch_PUSH.
  erewrite bind_Ok by (by eapply reg_isub_Ok).
  do 4 next_m. reflexivity.
Qed.

(** What a [CALL] through register [r] does: the stack pointer goes from
    [sp] to [sp - 1], the cell at address [pc + 2] receives [sp - 1], and
    [pc] becomes the value of the register. *)
Lemma step_CALL s sp regs r t m :
  fetch s = Some CALL →
  getitem (reg s) SP = Some sp → setitem (reg s) SP (sp - 1) = Some regs →
  setitem (ram s) (pc s + 2) (sp - 1) = Some m →
  getitem m (pc s + 1) = Some r → getitem regs r = Some t →
  step s = (set_pc t (set_ram m (set_reg regs s)), Ok tt).
Proof.
  intros Hf Hsp Hregs Hm Hr Ht.
  assert (getitem regs SP = Some (sp - 1)) as Hsp'
    by (by eapply getitem_setitem_same).
  rewrite (step_fetch _ _ Hf), dispatch_CALL.
  erewrite bind_Ok by (by eapply reg_isub_Ok).
  do 4 next_m. reflexivity.
Qed.

(** C1 on the code.  After [LDI R0,42] the machine is at [PUSH R0] with
    [SP = 0].  The turn leaves [SP = -1] and [pc] two further, but the cell
    at address -1 still holds 0, not 42, and the cell at address 42 has been
    overwritten with -1. *)
Theorem PUSH_writes_at_value_address :
  let s := fst (run 1 (boot [LDI; 0; 42; PUSH; 0; HLT])) in
  fetch s = Some PUSH ∧ getitem (ram s) (pc s + 1) = Some 0 ∧
  getitem (reg s) 0 = Some 42 ∧ getitem (reg s) SP = Some 0 ∧
  getitem (ram s) 42 = Some 0 ∧
  ∃ s', step s = (s', Ok tt) ∧
    getitem (reg s') SP = Some (-1) ∧ pc s' = pc s + 2 ∧
    getitem (ram s') (-1) = Some 0 ∧
    getitem (ram s') 42 = Some (-1).
Proof.
  cbv zeta. set (s := fst (run 1 (boot [LDI; 0; 42; PUSH; 0; HLT]))).
  do 5 (split; [vm_compute; reflexivity|]).
  exists (fst (step s)).
  do 4 (split; [vm_compute; reflexivity|]).
  vm_compute; reflexivity.
Qed.

(** C2 on the code.  After [LDI R1,6] the machine is at [CALL R1], at
    address 3, with [RET] at address 6.  [CALL] jumps to 6 with [SP = -1],
    but the cell at address -1 still holds 0, not the return address 5, and
    the cell at address 5 (the [HLT] after the call) now holds -1.  The [RET]
    that follows sets [pc] to 0, not to 5. *)
Theorem CALL_RET_loses_return_address :
  let s := fst (run 1 (boot [LDI; 1; 6; CALL; 1; HLT; RET])) in
  pc s = 3 ∧ fetch s = Some CALL ∧ getitem (ram s) 5 = Some HLT ∧
  ∃ s1 s2, step s = (s1, Ok tt) ∧
    pc s1 = 6 ∧ getitem (reg s1) SP = Some (-1) ∧
    getitem (ram s1) (-1) = Some 0 ∧ getitem (ram s1) 5 = Some (-1) ∧
    fetch s1 = Some RET ∧ step s1 = (s2, Ok tt) ∧
    getitem (reg s2) SP = Some 0 ∧ pc s2 = 0.
Proof.
  cbv zeta. set (s := fst (run 1 (boot [LDI; 1; 6; CALL; 1; HLT; RET]))).
  do 3 (split; [vm_compute; reflexivity|]).
  exists (fst (step s)), (fst (step (fst (step s)))).
  do 8 (split; [vm_compute; reflexivity|]).
  vm_compute; reflexivity.
Qed.

(** C3 on the code.  After [LDI R0,42], the turns [PUSH R0] and [POP R1]
    bring [SP] back to 0 but leave 0 in [R1], not 42. *)
Theorem PUSH_POP_loses_value :
  let s := fst (run 1 (boot [LDI; 0; 42; PUSH; 0; POP; 1; HLT])) in
  getitem (reg s) 0 = Some 42 ∧ getitem (reg s) SP = Some 0 ∧
  ∃ s', turns 2 s = Some ([PUSH; POP], s') ∧
    getitem (reg s') 1 = Some 0 ∧ getitem (reg s') SP = Some 0.
Proof.
  cbv zeta. set (s := fst (run 1 (boot [LDI; 0; 42; PUSH; 0; POP; 1; HLT]))).
  do 2 (split; [vm_compute; reflexivity|]).
  exists (fst (run 2 s)).
  do 2 (split; [vm_compute; reflexivity|]).
  vm_compute; reflexivity.
Qed.

(** ** The other instructions *)

Lemma reg_iadd_Ok s i n x r :
  getitem (reg s) i = Some x → setitem (reg s) i (x + n) = Some r →
  reg_iadd i n s = (set_reg r s, Ok tt).
Proof. intros Hx Hr. unfold reg_iadd. next_m. by apply reg_set_Ok. Qed.

Lemma dispatch_LDI alu' p :
  dispatch alu' p LDI
  = (index <-- ram_get (p + 1) ;; value <-- ram_get (p + 2) ;;
     reg_set index value ;;; pc_add 3).
Proof. reflexivity. Qed.

Lemma dispatch_PRN alu' p :
  dispatch alu' p PRN
  = (index <-- ram_get (p + 1) ;; v <-- reg_get index ;;
     print_int v ;;; pc_add 2).
Proof. reflexivity. Qed.

Lemma dispatch_POP alu' p :
  dispatch alu' p POP
  = (sp <-- reg_get SP ;; stack_val <-- ram_read sp ;;
     reg_num <-- ram_read (p + 1) ;; reg_set reg_num stack_val ;;;
     reg_iadd SP 1 ;;; pc_add 2).
Proof. reflexivity. Qed.

Lemma dispatch_RET alu' p :
  dispatch alu' p RET
  = (sp <-- reg_get SP ;; ret_addr <-- ram_read sp ;;
     pc_set ret_addr ;;; reg_iadd SP 1).
Proof. reflexivity. Qed.

Lemma dispatch_JMP alu' p :
  dispatch alu' p JMP
  = (reg_a <-- ram_read (p + 1) ;; target <-- reg_get reg_a ;;
     pc_set target).
Proof. reflexivity. Qed.

Lemma dispatch_HLT alu' p :
  dispatch alu' p HLT = (print "Exiting..." ;;; sys_exit 0).
Proof. reflexivity. Qed.

(** X1.  [LDI]: with the two operand bytes [i] and [v] readable and [i] a
    register subscript, the turn stores [v] in [reg[i]], leaves every other
    register, the memory, the flags and the output as they were, and adds 3
    to [pc]. *)
Theorem step_LDI s i v :
  fetch s = Some LDI →
  getitem (ram s) (pc s + 1) = Some i → getitem (ram s) (pc s + 2) = Some v →
  is_Some (getitem (reg s) i) →
  ∃ regs, step s = (set_pc (pc s + 3) (set_reg regs s), Ok tt) ∧
    getitem regs i = Some v ∧
    (∀ j, ¬ same_cell (reg s) j i → getitem regs j = getitem (reg s) j).
Proof.
  intros Hf Hi Hv Hreg.
  destruct (setitem_is_Some (reg s) i v) as [_ [regs Hregs]]; [done|].
  exists regs. split_and!.
  - rewrite (step_fetch _ _ Hf), dispatch_LDI. do 3 next_m. reflexivity.
  - by eapply getitem_setitem_same.
  - intros j Hj. by eapply getitem_setitem_other.
Qed.

Lemma step_LDI_witness :
  ∃ regs, step (boot [LDI; 3; 200; HLT])
          = (set_pc 3 (set_reg regs (boot [LDI; 3; 200; HLT])), Ok tt) ∧
    getitem regs 3 = Some 200 ∧ getitem regs 0 = Some 0.
Proof.
  destruct (step_LDI (boot [LDI; 3; 200; HLT]) 3 200 eq_refl eq_refl eq_refl)
    as (regs & Hs & H3 & Hother); [by eexists|].
  exists regs. split_and!; [exact Hs | exact H3 |].
  rewrite Hother; [reflexivity|]. unfold same_cell. vm_compute. discriminate.
Defined.

Lemma print_int_Ok s n :
  Z.abs n < 10 ^ int_max_str_digits →
  print_int n s = (set_stdout (stdout s ++ [pretty n]) s, Ok tt).
Proof.
  intros Hn. unfold print_int, str_digits_ok.
  by rewrite bool_decide_eq_true_2.
Qed.

Lemma print_int_Raise s n :
  10 ^ int_max_str_digits ≤ Z.abs n →
  print_int n s = (s, Raise ValueError).
Proof.
  intros Hn. unfold print_int, str_digits_ok.
  rewrite bool_decide_eq_false_2; [done | lia].
Qed.

(** X2.  [PRN]: with the operand byte [i] readable and [reg[i] = v], when
    [v] has at most 4300 decimal digits the turn appends the decimal numeral
    of [v] as one line of output, adds 2 to [pc], and changes nothing else;
    when [v] has more digits the turn raises [ValueError] with nothing
    printed and nothing changed. *)
Theorem step_PRN s i v :
  fetch s = Some PRN →
  getitem (ram s) (pc s + 1) = Some i → getitem (reg s) i = Some v →
  (Z.abs v < 10 ^ int_max_str_digits →
     step s
     = (set_pc (pc s + 2) (set_stdout (stdout s ++ [pretty v]) s), Ok tt)) ∧
  (10 ^ int_max_str_digits ≤ Z.abs v → step s = (s, Raise ValueError)).
Proof.
  intros Hf Hi Hv. rewrite (step_fetch _ _ Hf), dispatch_PRN. split.
  - intros Hn. do 2 next_m.
    by erewrite bind_Ok by (by apply print_int_Ok).
  - intros Hn. do 2 next_m.
    by erewrite bind_Raise by (by apply print_int_Raise).
Qed.

Lemma step_PRN_witness :
  let s := set_reg [-7; 0; 0; 0; 0; 0; 0; 0] (boot [PRN; 0; HLT]) in
  let s' := set_reg [10 ^ 4300; 0; 0; 0; 0; 0; 0; 0] (boot [PRN; 0; HLT]) in
  step s = (set_pc 2 (set_stdout ["-7"] s), Ok tt) ∧
  step s' = (s', Raise ValueError).
Proof.
  cbv zeta. split.
  - destruct (step_PRN
                (set_reg [-7; 0; 0; 0; 0; 0; 0; 0] (boot [PRN; 0; HLT]))
                0 (-7) eq_refl eq_refl eq_refl) as [H _].
    apply H. vm_compute. reflexivity.
  - destruct (step_PRN
                (set_reg [10 ^ 4300; 0; 0; 0; 0; 0; 0; 0] (boot [PRN; 0; HLT]))
                0 (10 ^ 4300) eq_refl eq_refl eq_refl) as [_ H].
    apply H. vm_compute. discriminate.
Defined.

(** X3.  [HLT]: the turn prints "Exiting..." and exits with status 0, with
    registers, memory, flags and [pc] as they were; so does [run], whatever
    the fuel. *)
Theorem step_HLT s fuel :
  fetch s = Some HLT →
  let s' := set_stdout (stdout s ++ ["Exiting..."]) s in
  step s = (s', Raise (SystemExit 0)) ∧
  run (S fuel) s = (s', Raise (SystemExit 0)) ∧
  exit_status (SystemExit 0) = 0.
Proof.
  intros Hf s'.
  assert (step s = (s', Raise (SystemExit 0))) as Hs.
  { rewrite (step_fetch _ _ Hf), dispatch_HLT. reflexivity. }
  split_and!; [done | | done]. simpl. by erewrite bind_Raise.
Qed.

Lemma step_HLT_witness :
  run 7 (boot [HLT])
  = (set_stdout ["Exiting..."] (boot [HLT]), Raise (SystemExit 0)).
Proof.
  destruct (step_HLT (boot [HLT]) 6 eq_refl) as (_ & Hrun & _). exact Hrun.
Defined.

(** X4.  [JMP]: with the operand byte [r] readable and [reg[r] = t], the
    turn sets [pc] to [t], whatever [t] is, and changes nothing else. *)
Theorem step_JMP s r t :
  fetch s = Some JMP →
  getitem (ram s) (pc s + 1) = Some r → getitem (reg s) r = Some t →
  step s = (set_pc t s, Ok tt).
Proof.
  intros Hf Hr Ht. rewrite (step_fetch _ _ Hf), dispatch_JMP.
  do 2 next_m. reflexivity.
Qed.

Lemma step_JMP_witness :
  let s := set_reg [0; 0; 0; 0; 0; 9; 0; 0] (boot [JMP; 5]) in
  step s = (set_pc 9 s, Ok tt).
Proof.
  exact (step_JMP (set_reg [0; 0; 0; 0; 0; 9; 0; 0] (boot [JMP; 5]))
           5 9 eq_refl eq_refl eq_refl).
Defined.

Lemma py_index_setitem {A} (l l' : list A) i j v :
  setitem l i v = Some l' → py_index l' j = py_index l j.
Proof.
  unfold setitem. destruct (py_index l i); intros; simplify_eq/=.
  apply py_index_insert.
Qed.

(** X5.  [POP]: with [reg[7] = sp], the cell at address [sp] holding [v] and
    the operand byte [r] a register subscript, the turn copies [v] into
    [reg[r]], then adds 1 to the stack pointer, and adds 2 to [pc]; memory,
    flags and output are untouched.  When [r] names the stack pointer itself
    the register ends as [v + 1]. *)
Theorem step_POP s sp v r :
  fetch s = Some POP →
  getitem (reg s) SP = Some sp → getitem (ram s) sp = Some v →
  getitem (ram s) (pc s + 1) = Some r → is_Some (getitem (reg s) r) →
  ∃ regs, step s = (set_pc (pc s + 2) (set_reg regs s), Ok tt) ∧
    (¬ same_cell (reg s) r SP →
       getitem regs r = Some v ∧ getitem regs SP = Some (sp + 1)) ∧
    (same_cell (reg s) r SP → getitem regs SP = Some (v + 1)) ∧
    (∀ j, ¬ same_cell (reg s) j r → ¬ same_cell (reg s) j SP →
          getitem regs j = getitem (reg s) j).
Proof.
  intros Hf Hsp Hv Hr Hreg.
  destruct (setitem_is_Some (reg s) r v) as [_ [regs1 H1]]; [done|].
  assert (∃ x, getitem regs1 SP = Some x ∧
               (¬ same_cell (reg s) r SP → x = sp) ∧
               (same_cell (reg s) r SP → x = v)) as (x & Hx & Hne & Heq).
  { destruct (decide (py_index (reg s) r = py_index (reg s) SP)) as [Hc|Hc].
    - exists v. split_and!; [|done..]. by eapply getitem_setitem_same.
    - exists sp. split_and!; [|done..].
      rewrite <- Hsp. eapply getitem_setitem_other; [done|].
      unfold same_cell in Hc. congruence. }
  destruct (setitem_is_Some regs1 SP (x + 1)) as [_ [regs H2]]; [by eexists|].
  exists regs. split_and!.
  - rewrite (step_fetch _ _ Hf), dispatch_POP. do 4 next_m.
    erewrite bind_Ok by (by eapply reg_iadd_Ok). reflexivity.
  - intros Hc. split.
    + erewrite (getitem_setitem_other regs1); [by eapply getitem_setitem_same|done|].
      rewrite !(py_index_setitem _ _ _ _ _ H1). exact Hc.
    + rewrite <- (Hne Hc). by eapply getitem_setitem_same.
  - intros Hc. rewrite <- (Heq Hc). by eapply getitem_setitem_same.
  - intros j Hjr Hjsp.
    erewrite (getitem_setitem_other regs1); [by eapply getitem_setitem_other|done|].
    rewrite !(py_index_setitem _ _ _ _ _ H1). exact Hjsp.
Qed.

Lemma step_POP_witness :
  let s := set_ram (<[255%nat := 42]> (ram (boot [POP; 1; HLT])))
             (set_reg [0; 0; 0; 0; 0; 0; 0; -1] (boot [POP; 1; HLT])) in
  ∃ regs, step s = (set_pc 2 (set_reg regs s), Ok tt) ∧
    getitem regs 1 = Some 42 ∧ getitem regs SP = Some 0.
Proof.
  cbv zeta.
  set (s := set_ram (<[255%nat := 42]> (ram (boot [POP; 1; HLT])))
              (set_reg [0; 0; 0; 0; 0; 0; 0; -1] (boot [POP; 1; HLT]))).
  assert (fetch s = Some POP) as Hf by (vm_compute; reflexivity).
  assert (getitem (reg s) SP = Some (-1)) as Hsp by (vm_compute; reflexivity).
  assert (getitem (ram s) (-1) = Some 42) as Hv by (vm_compute; reflexivity).
  assert (getitem (ram s) (pc s + 1) = Some 1) as Hr
    by (vm_compute; reflexivity).
  assert (is_Some (getitem (reg s) 1)) as Hreg by (vm_compute; by eexists).
  destruct (step_POP s (-1) 42 1 Hf Hsp Hv Hr Hreg) as (regs & Hs & Hne & _).
  exists regs. split; [exact Hs|].
  apply Hne. unfold same_cell. vm_compute. discriminate.
Defined.

(** X6.  [RET]: with [reg[7] = sp] and the cell at address [sp] holding [t],
    the turn sets [pc] to [t] and adds 1 to the stack pointer; the other
    registers, memory, flags and output are untouched. *)
Theorem step_RET s sp t :
  fetch s = Some RET →
  getitem (reg s) SP = Some sp → getitem (ram s) sp = Some t →
  ∃ regs, step s = (set_reg regs (set_pc t s), Ok tt) ∧
    getitem regs SP = Some (sp + 1) ∧
    (∀ j, ¬ same_cell (reg s) j SP → getitem regs j = getitem (reg s) j).
Proof.
  intros Hf Hsp Ht.
  destruct (setitem_is_Some (reg s) SP (sp + 1)) as [_ [regs Hregs]];
    [by eexists|].
  exists regs. split_and!.
  - rewrite (step_fetch _ _ Hf), dispatch_RET. do 3 next_m.
    by eapply reg_iadd_Ok.
  - by eapply getitem_setitem_same.
  - intros j Hj. by eapply getitem_setitem_other.
Qed.

Lemma step_RET_witness :
  let s := set_ram (<[255%nat := 9]> (ram (boot [RET])))
             (set_reg [0; 0; 0; 0; 0; 0; 0; -1] (boot [RET])) in
  ∃ regs, step s = (set_reg regs (set_pc 9 s), Ok tt) ∧
    getitem regs SP = Some 0.
Proof.
  cbv zeta.
  set (s := set_ram (<[255%nat := 9]> (ram (boot [RET])))
              (set_reg [0; 0; 0; 0; 0; 0; 0; -1] (boot [RET]))).
  assert (fetch s = Some RET) as Hf by (vm_compute; reflexivity).
  assert (getitem (reg s) SP = Some (-1)) as Hsp by (vm_compute; reflexivity).
  assert (getitem (ram s) (-1) = Some 9) as Ht by (vm_compute; reflexivity).
  destruct (step_RET s (-1) 9 Hf Hsp Ht) as (regs & Hs & Hsp' & _).
  exists regs. by split.
Defined.

(** ** More of the ALU *)

Lemma alu_ADD_unfold a b :
  alu "ADD" a b = (x <-- reg_get a ;; y <-- reg_get b ;; reg_set a (x + y)).
Proof. reflexivity. Qed.

Lemma alu_SUB_unfold a b :
  alu "SUB" a b = (x <-- reg_get a ;; y <-- reg_get b ;; reg_set a (x - y)).
Proof. reflexivity. Qed.

Lemma alu_DIV_unfold a b :
  alu "DIV" a b
  = (x <-- reg_get a ;; y <-- reg_get b ;;
     if bool_decide (y = 0) then raise ZeroDivisionError
     else if truediv_overflows x y then raise OverflowError
     else (λ s, (s, Float))).
Proof. reflexivity. Qed.

(** X7.  [ADD] and [SUB] on registers holding [x] and [y] write the exact
    sum and difference into [reg[a]], with no wrap to a byte, and leave every
    other register, the memory, [pc], the flags and the output as they
    were. *)
Theorem alu_ADD_SUB s a b x y :
  getitem (reg s) a = Some x → getitem (reg s) b = Some y →
  (∃ r, alu "ADD" a b s = (set_reg r s, Ok tt) ∧
     getitem r a = Some (x + y) ∧
     ∀ c, ¬ same_cell (reg s) c a → getitem r c = getitem (reg s) c) ∧
  (∃ r, alu "SUB" a b s = (set_reg r s, Ok tt) ∧
     getitem r a = Some (x - y) ∧
     ∀ c, ¬ same_cell (reg s) c a → getitem r c = getitem (reg s) c).
Proof.
  intros Ha Hb. split.
  - destruct (setitem_is_Some (reg s) a (x + y)) as [_ [r Hr]]; [by eexists|].
    exists r. split_and!.
    + rewrite alu_ADD_unfold. do 2 next_m. by apply reg_set_Ok.
    + by eapply getitem_setitem_same.
    + intros c Hc. by eapply getitem_setitem_other.
  - destruct (setitem_is_Some (reg s) a (x - y)) as [_ [r Hr]]; [by eexists|].
    exists r. split_and!.
    + rewrite alu_SUB_unfold. do 2 next_m. by apply reg_set_Ok.
    + by eapply getitem_setitem_same.
    + intros c Hc. by eapply getitem_setitem_other.
Qed.

Lemma alu_ADD_SUB_witness :
  let s := set_reg [200; 100; 0; 0; 0; 0; 0; 0] init in
  (∃ r, alu "ADD" 0 1 s = (set_reg r s, Ok tt) ∧ getitem r 0 = Some 300) ∧
  (∃ r, alu "SUB" 1 0 s = (set_reg r s, Ok tt) ∧ getitem r 1 = Some (-100)).
Proof.
  cbv zeta. split.
  - destruct (alu_ADD_SUB (set_reg [200; 100; 0; 0; 0; 0; 0; 0] init)
                0 1 200 100 eq_refl eq_refl) as [(r & Hs & Hr & _) _].
    exists r. by split.
  - destruct (alu_ADD_SUB (set_reg [200; 100; 0; 0; 0; 0; 0; 0] init)
                1 0 100 200 eq_refl eq_refl) as [_ (r & Hs & Hr & _)].
    exists r. by split.
Defined.

(** X8.  Under any operation name other than the five it knows, [alu]
    raises [Exception("Unsupported ALU operation")] and changes nothing, not
    even reading a register: the register subscripts may be anything. *)
Theorem alu_unknown_name op a b s :
  op ∉ ["ADD"; "SUB"; "MUL"; "DIV"; "CMP"] →
  alu op a b s = (s, Raise alu_unsupported).
Proof.
  rewrite !not_elem_of_cons. intros (H1 & H2 & H3 & H4 & H5 & _).
  unfold alu.
  apply String.eqb_neq in H1, H2, H3, H4, H5.
  by rewrite H1, H2, H3, H4, H5.
Qed.

Lemma alu_unknown_name_witness :
  alu "AND" 99 (-99) init = (init, Raise alu_unsupported).
Proof.
  apply alu_unknown_name.
  intros H. repeat (apply elem_of_cons in H as [H|H]; [discriminate H|]).
  by apply elem_of_nil in H.
Defined.

(** X9.  [DIV] with a zero in [reg[b]] raises [ZeroDivisionError] and leaves
    [reg[a]] and everything else as it was. *)
Theorem alu_DIV_zero s a b x :
  getitem (reg s) a = Some x → getitem (reg s) b = Some 0 →
  alu "DIV" a b s = (s, Raise ZeroDivisionError).
Proof.
  intros Ha Hb. rewrite alu_DIV_unfold. by do 2 next_m.
Qed.

Lemma alu_DIV_zero_witness :
  alu "DIV" 0 1 (set_reg [7; 0; 0; 0; 0; 0; 0; 0] init)
  = (set_reg [7; 0; 0; 0; 0; 0; 0; 0] init, Raise ZeroDivisionError).
Proof.
  exact (alu_DIV_zero (set_reg [7; 0; 0; 0; 0; 0; 0; 0] init) 0 1 7
           eq_refl eq_refl).
Defined.

(** X10.  Under each of its five names, [alu] with a register subscript out
    of range raises [IndexError] before it writes anything: no register and
    no flag has changed. *)
Theorem alu_bad_register op a b s :
  op ∈ ["ADD"; "SUB"; "MUL"; "DIV"; "CMP"] →
  getitem (reg s) a = None ∨ getitem (reg s) b = None →
  alu op a b s = (s, Raise IndexError).
Proof.
  intros Hop Hbad.
  assert (∀ k : Z → Z → M unit,
            (x <-- reg_get a ;; y <-- reg_get b ;; k x y) s
            = (s, Raise IndexError)) as Hread.
  { intros k. destruct (getitem (reg s) a) as [x|] eqn:Ha.
    - destruct Hbad as [|Hb]; [done|]. by do 2 next_m.
    - by next_m. }
  rewrite !elem_of_cons, elem_of_nil in Hop.
  destruct Hop as [->|[->|[->|[->|[->|[]]]]]].
  - rewrite alu_ADD_unfold. apply Hread.
  - rewrite alu_SUB_unfold. apply Hread.
  - rewrite alu_MUL_unfold. apply Hread.
  - rewrite alu_DIV_unfold. apply Hread.
  - rewrite alu_CMP_unfold. erewrite bind_Raise; [done|]. apply Hread.
Qed.

Lemma alu_bad_register_witness :
  alu "CMP" 0 8 init = (init, Raise IndexError).
Proof.
  apply alu_bad_register.
  - do 4 (apply elem_of_cons; right). apply elem_of_cons. by left.
  - right. reflexivity.
Defined.

Lemma cmp_flags_twice x y x' y' (f : gmap string Z) :
  cmp_flags x y (cmp_flags x' y' f) = cmp_flags x y f.
Proof.
  apply map_eq. intros k. unfold cmp_flags.
  rewrite !lookup_insert. by repeat case_decide.
Qed.

(** X11.  Flags are not reset but overwritten: a [CMP] after an earlier
    [CMP] leaves exactly the state that it leaves without the earlier one. *)
Theorem alu_CMP_overwrites s a b c d :
  is_Some (getitem (reg s) a) → is_Some (getitem (reg s) b) →
  is_Some (getitem (reg s) c) → is_Some (getitem (reg s) d) →
  (alu "CMP" c d ;;; alu "CMP" a b) s = alu "CMP" a b s.
Proof.
  intros [x Ha] [y Hb] [x' Hc] [y' Hd].
  erewrite bind_Ok by (by apply alu_CMP_eq).
  rewrite (alu_CMP_eq s a b x y), (alu_CMP_eq _ a b x y) by done.
  unfold set_flag. simpl. by rewrite cmp_flags_twice.
Qed.

Lemma alu_CMP_overwrites_witness :
  let s := set_reg [1; 2; 3; 3; 0; 0; 0; 0] init in
  (alu "CMP" 2 3 ;;; alu "CMP" 0 1) s = alu "CMP" 0 1 s.
Proof.
  apply alu_CMP_overwrites; vm_compute; by eexists.
Defined.

(** ** More of the memory *)

(** X12.  Outside the addresses -256 to 255, [ram_read] and [ram_write]
    raise [IndexError] and change nothing. *)
Theorem ram_out_of_range s a v :
  length (ram s) = 256%nat → a < -256 ∨ 255 < a →
  ram_read a s = (s, Raise IndexError) ∧
  ram_write v a s = (s, Raise IndexError).
Proof.
  intros Hlen Ha.
  assert (py_index (ram s) a = None) as Hi
    by (apply py_index_out; rewrite Hlen; lia).
  split.
  - apply ram_read_Raise. unfold getitem. by rewrite Hi.
  - apply ram_write_Raise. unfold setitem. by rewrite Hi.
Qed.

Lemma ram_out_of_range_witness :
  ram_read 256 init = (init, Raise IndexError) ∧
  ram_write 1 (-257) init = (init, Raise IndexError).
Proof.
  split.
  - apply (ram_out_of_range init 256 0 eq_refl). lia.
  - apply (ram_out_of_range init (-257) 1 eq_refl). lia.
Defined.

(** X13.  A [ram_write] that returns is read back by [ram_read] at the same
    address and at the address 256 away that names the same cell; every
    other cell reads as before, and registers, [pc], flags and output are
    untouched. *)
Theorem ram_write_read s v a s' :
  ram_write v a s = (s', Ok tt) →
  ram_read a s' = (s', Ok v) ∧
  (∀ a', same_cell (ram s) a' a → ram_read a' s' = (s', Ok v)) ∧
  (∀ a', ¬ same_cell (ram s) a' a →
         getitem (ram s') a' = getitem (ram s) a') ∧
  reg s' = reg s ∧ pc s' = pc s ∧ flag s' = flag s ∧ stdout s' = stdout s.
Proof.
  intros Hw.
  destruct (setitem (ram s) a v) as [m|] eqn:Hm.
  - rewrite (ram_write_Ok _ _ _ _ Hm) in Hw. injection Hw as <-.
    split_and!; try done.
    + apply ram_read_Ok. simpl. by eapply getitem_setitem_same.
    + intros a' Ha'. apply ram_read_Ok. simpl.
      by eapply getitem_setitem_same.
    + intros a' Ha'. simpl. by eapply getitem_setitem_other.
  - by rewrite (ram_write_Raise _ _ _ Hm) in Hw.
Qed.

Lemma ram_write_read_witness :
  let s' := set_ram (<[255%nat := 42]> (ram init)) init in
  ram_read (-1) s' = (s', Ok 42) ∧ ram_read 255 s' = (s', Ok 42).
Proof.
  cbv zeta.
  destruct (ram_write_read init 42 (-1)
              (set_ram (<[255%nat := 42]> (ram init)) init) eq_refl)
    as (Hsame & Halias & _).
  split; [exact Hsame|]. apply Halias. reflexivity.
Defined.

(** X14.  With [pc] outside -256 to 255 the fetch itself raises
    [IndexError]: a jump, call or return to such an address ends the run at
    the next turn, with nothing changed and nothing printed. *)
Theorem run_pc_out_of_range s fuel :
  length (ram s) = 256%nat → pc s < -256 ∨ 255 < pc s →
  step s = (s, Raise IndexError) ∧ run (S fuel) s = (s, Raise IndexError).
Proof.
  intros Hlen Hpc.
  assert (step s = (s, Raise IndexError)) as Hs.
  { apply step_fetch_None. unfold fetch, getitem.
    rewrite py_index_out; [done|]. rewrite Hlen. lia. }
  split; [done|]. simpl. by erewrite bind_Raise.
Qed.

Lemma run_pc_out_of_range_witness :
  run 3 (set_pc 256 init) = (set_pc 256 init, Raise IndexError).
Proof.
  destruct (run_pc_out_of_range (set_pc 256 init) 2 eq_refl) as [_ H];
    [right; simpl; lia | exact H].
Defined.

(** ** Loading a program *)

Lemma set_ram_set_ram m m' s : set_ram m (set_ram m' s) = set_ram m s.
Proof. reflexivity. Qed.

Lemma set_ram_id s : set_ram (ram s) s = s.
Proof. by destruct s. Qed.

Lemma ram_set_nat s k v :
  (k < length (ram s))%nat →
  ram_set (Z.of_nat k) v s = (set_ram (<[k := v]> (ram s)) s, Ok tt).
Proof.
  intros Hk. apply ram_set_Ok. unfold setitem.
  rewrite py_index_nonneg by lia. simpl. by rewrite Nat2Z.id.
Qed.

Lemma ram_set_past s k v :
  (length (ram s) ≤ k)%nat →
  ram_set (Z.of_nat k) v s = (s, Raise IndexError).
Proof.
  intros Hk. apply ram_set_Raise. unfold setitem.
  by rewrite py_index_out by lia.
Qed.

Lemma load_from_fits nums k s :
  (k + length nums ≤ length (ram s))%nat →
  load_from (Z.of_nat k) nums s
  = (set_ram (take k (ram s) ++ nums ++ drop (k + length nums) (ram s)) s,
     Ok tt).
Proof.
  revert k s. induction nums as [|num rest IH]; intros k s Hk; simpl in *.
  - by rewrite Nat.add_0_r, take_drop, set_ram_id.
  - erewrite bind_Ok by (apply ram_set_nat; lia).
    replace (Z.of_nat k + 1) with (Z.of_nat (S k)) by lia.
    rewrite IH by (simpl; rewrite length_insert; lia).
    rewrite set_ram_set_ram. simpl. do 2 f_equal.
    rewrite (take_S_r _ _ num) by (apply list_lookup_insert_eq; lia).
    rewrite take_insert_ge by lia. rewrite drop_insert_lt by lia.
    rewrite <- (assoc_L (++)). simpl.
    by replace (k + S (length rest))%nat with (S (k + length rest)) by lia.
Qed.

Lemma load_from_overflow nums k s :
  (k ≤ length (ram s))%nat → (length (ram s) < k + length nums)%nat →
  load_from (Z.of_nat k) nums s
  = (set_ram (take k (ram s) ++ take (length (ram s) - k) nums) s,
     Raise IndexError).
Proof.
  revert k s. induction nums as [|num rest IH]; intros k s Hk Hover;
    simpl in *; [lia|].
  destruct (decide (k = length (ram s))) as [->|Hne].
  - erewrite bind_Raise by (by apply ram_set_past).
    by rewrite Nat.sub_diag, take_0, (right_id_L [] (++)), take_ge,
      set_ram_id.
  - erewrite bind_Ok by (apply ram_set_nat; lia).
    replace (Z.of_nat k + 1) with (Z.of_nat (S k)) by lia.
    rewrite IH by (simpl; rewrite length_insert; lia).
    rewrite set_ram_set_ram. simpl. do 2 f_equal.
    rewrite length_insert.
    rewrite (take_S_r _ _ num) by (apply list_lookup_insert_eq; lia).
    rewrite take_insert_ge by lia.
    replace (length (ram s) - k)%nat with (S (length (ram s) - S k)) by lia.
    by rewrite <- (assoc_L (++)).
Qed.

(** X15.  [load] of at most 256 numbers stores them in order from address
    0 and returns; the cells after the program keep what they held (zeros on
    a fresh machine), and registers, [pc], flags and output are untouched.
    The numbers are stored as they are, whatever their size or sign. *)
Theorem load_layout nums s :
  length (ram s) = 256%nat → (length nums ≤ 256)%nat →
  load nums s = (set_ram (nums ++ drop (length nums) (ram s)) s, Ok tt) ∧
  load nums init
  = (set_ram (nums ++ replicate (256 - length nums) 0) init, Ok tt).
Proof.
  intros Hlen Hnums. split.
  - unfold load. change 0 with (Z.of_nat 0).
    by rewrite load_from_fits by (rewrite Hlen; simpl; lia).
  - unfold load. change 0 with (Z.of_nat 0).
    rewrite load_from_fits by (rewrite Nat.add_0_l; exact Hnums).
    change (ram init) with (replicate 256 (0:Z)).
    by rewrite take_0, Nat.add_0_l, drop_replicate.
Qed.

Lemma load_layout_witness :
  load [LDI; 0; 300; HLT] init
  = (set_ram ([LDI; 0; 300; HLT] ++ replicate 252 0) init, Ok tt).
Proof.
  destruct (load_layout [LDI; 0; 300; HLT] init eq_refl) as [_ H];
    [simpl; lia | exact H].
Defined.

(** X16.  [load] of more than 256 numbers stores the first 256 and then
    raises [IndexError], which [load] does not catch. *)
Theorem load_overflow nums s :
  length (ram s) = 256%nat → (256 < length nums)%nat →
  load nums s = (set_ram (take 256 nums) s, Raise IndexError).
Proof.
  intros Hlen Hnums. unfold load. change 0 with (Z.of_nat 0).
  rewrite load_from_overflow by (rewrite ?Hlen; simpl; lia).
  by rewrite Hlen, take_0.
Qed.

Lemma load_overflow_witness :
  load (replicate 257 HLT) init
  = (set_ram (replicate 256 HLT) init, Raise IndexError).
Proof.
  rewrite (load_overflow (replicate 257 HLT) init eq_refl).
  - reflexivity.
  - rewrite length_replicate. lia.
Defined.

(** ** How a run ends *)

Section only_ends.
Context (Q : exn → Prop).
Hypothesis Q_index : Q IndexError.

Lemma only_ends_ret {A} (a : A) : only_ends Q (ret a).
Proof. by intros s. Qed.

Lemma only_ends_modify f : only_ends Q (modify f).
Proof. by intros s. Qed.

Lemma only_ends_get : only_ends Q get.
Proof. by intros s. Qed.

Lemma only_ends_raise {A} e : Q e → only_ends Q (raise (A:=A) e).
Proof. by intros He s. Qed.

Lemma only_ends_sub {A} (o : option A) : only_ends Q (sub o).
Proof. destruct o; [apply only_ends_ret | by apply only_ends_raise]. Qed.

Lemma only_ends_bind {A B} (m : M A) (k : A → M B) :
  only_ends Q m → (∀ a, only_ends Q (k a)) → only_ends Q (bind m k).
Proof.
  intros Hm Hk s. unfold bind. specialize (Hm s).
  destruct (m s) as [s1 [a|e|]]; simpl in *; [apply Hk | done..].
Qed.

Lemma only_ends_if {A} (b : bool) (m1 m2 : M A) :
  only_ends Q m1 → only_ends Q m2 → only_ends Q (if b then m1 else m2).
Proof. by destruct b. Qed.

Lemma only_ends_flag_get k : Q (KeyError k) → only_ends Q (flag_get k).
Proof.
  intros Hk s. unfold flag_get, bind, get. by destruct (flag s !! k).
Qed.

Ltac only_ends_tac :=
  repeat first
    [ apply only_ends_ret | apply only_ends_modify | apply only_ends_get
    | apply only_ends_sub
    | by apply only_ends_raise
    | by apply only_ends_flag_get
    | apply only_ends_if
    | apply only_ends_bind; [ | intros ] ].

Lemma only_ends_alu_MUL a b : only_ends Q (alu "MUL" a b).
Proof. rewrite alu_MUL_unfold. unfold reg_get, reg_set. only_ends_tac. Qed.

Lemma only_ends_alu_CMP a b : only_ends Q (alu "CMP" a b).
Proof. rewrite alu_CMP_unfold. unfold reg_get, flag_set. only_ends_tac. Qed.

Hypothesis Q_key : Q (KeyError "E").
Hypothesis Q_value : Q ValueError.
Hypothesis Q_exit0 : Q (SystemExit 0).
Hypothesis Q_exit1 : Q (SystemExit 1).

Lemma only_ends_print_int n : only_ends Q (print_int n).
Proof.
  unfold print_int. apply only_ends_if; [apply only_ends_modify|].
  by apply only_ends_raise.
Qed.

Lemma only_ends_dispatch p op : only_ends Q (dispatch alu p op).
Proof.
  unfold dispatch.
  repeat first
    [ apply only_ends_alu_MUL | apply only_ends_alu_CMP
    | apply only_ends_print_int
    | by apply only_ends_flag_get
    | apply only_ends_if
    | apply only_ends_bind; [ | intros ] ];
  unfold ram_read, ram_write, ram_get, ram_set, reg_iadd, reg_isub,
    reg_get, reg_set, print_int, print, pc_add, pc_set, get_pc, sys_exit;
  only_ends_tac.
Qed.

Lemma only_ends_step : only_ends Q step.
Proof.
  unfold step, step_with.
  apply only_ends_bind; [unfold get_pc; only_ends_tac | intros p].
  apply only_ends_bind; [unfold ram_read, ram_get; only_ends_tac | intros op].
  apply only_ends_dispatch.
Qed.

Lemma only_ends_run fuel : only_ends Q (run fuel).
Proof.
  induction fuel as [|n IH]; simpl; [apply only_ends_ret|].
  apply only_ends_bind; [apply only_ends_step | done].
Qed.

End only_ends.

(** X17.  The instructions of a run raise nothing but [IndexError] (a
    subscript out of range), [KeyError('E')] (a conditional jump before any
    [CMP]), [ValueError] ([PRN] of an integer of more than 4300 digits),
    [sys.exit(0)] ([HLT]) and [sys.exit(1)] (unknown opcode).  After any
    number of turns the run has ended by one of these or is still running;
    it never divides, never stores a float, and [alu] under the two names it
    is called with can only raise [IndexError]. *)
Theorem run_endings :
  (∀ fuel s, ends_with run_ending (snd (run fuel s))) ∧
  (∀ a b s, ends_with (λ e, e = IndexError) (snd (alu "MUL" a b s))) ∧
  (∀ a b s, ends_with (λ e, e = IndexError) (snd (alu "CMP" a b s))).
Proof.
  split_and!.
  - intros fuel s. apply only_ends_run; unfold run_ending; auto.
  - intros a b s. by apply only_ends_alu_MUL.
  - intros a b s. by apply only_ends_alu_CMP.
Qed.

(** ** What a turn leaves alone *)

Global Instance same_ram_preorder : PreOrder same_ram.
Proof.
  split; [by intros s | intros s1 s2 s3; unfold same_ram; congruence].
Qed.

Global Instance same_stdout_preorder : PreOrder same_stdout.
Proof.
  split; [by intros s | intros s1 s2 s3; unfold same_stdout; congruence].
Qed.

(** Walk through a method body with the lemmas of [keeps]; what is left
    are the conditions on the field updates that the body makes. *)
Ltac keeps_walk :=
  repeat first
    [ apply keeps_ret | apply keeps_raise | apply keeps_get_pc
    | apply keeps_sys_exit | apply keeps_pc_set | apply keeps_pc_add
    | apply keeps_reg_get | apply keeps_ram_get | apply keeps_ram_read
    | apply keeps_flag_get | apply keeps_reg_set | apply keeps_reg_iadd
    | apply keeps_reg_isub | apply keeps_alu_MUL | apply keeps_alu_CMP
    | apply keeps_ram_set | apply keeps_ram_write | apply keeps_print
    | apply keeps_print_int
    | apply keeps_if
    | apply keeps_bind; [ apply _ | | intros ] ].

Lemma dispatch_same_ram p op :
  op ≠ PUSH → op ≠ CALL → keeps same_ram (dispatch alu p op).
Proof.
  intros HPUSH HCALL. unfold dispatch.
  repeat case_bool_decide; try done; keeps_walk;
    try apply _; by intros.
Qed.

Lemma in_table op :
  op ∈ instruction_table →
  op = LDI ∨ op = PRN ∨ op = MUL ∨ op = POP ∨ op = PUSH ∨ op = CALL ∨
  op = RET ∨ op = CMP ∨ op = JMP ∨ op = JNE ∨ op = JEQ ∨ op = HLT.
Proof.
  unfold instruction_table. rewrite !elem_of_cons, elem_of_nil. tauto.
Qed.

Lemma dispatch_same_stdout p op :
  op ∈ instruction_table → op ≠ PRN → op ≠ HLT →
  keeps same_stdout (dispatch alu p op).
Proof.
  intros Hin%in_table HPRN HHLT. unfold dispatch.
  repeat case_bool_decide; try done; try (exfalso; tauto); keeps_walk;
    try apply _; by intros.
Qed.

(** X18.  From a loaded machine, after any number of turns and however the
    run has ended, there are still exactly eight registers and 256 cells:
    no instruction grows or shrinks either list. *)
Theorem run_keeps_shape nums fuel :
  length (reg (fst (run fuel (boot nums)))) = 8%nat ∧
  length (ram (fst (run fuel (boot nums)))) = 256%nat.
Proof.
  assert (∀ s, shaped s → shaped (fst (run fuel s))) as H.
  { induction fuel as [|n IH]; intros s Hs; [done|].
    simpl. unfold bind. destruct (step s) as [s1 [[]|e|]] eqn:Hstep; simpl.
    - apply IH. by eapply step_shaped.
    - by eapply step_shaped.
    - by eapply step_shaped. }
  apply H, boot_shaped.
Qed.

(** X19.  Only [CMP] touches the flags: a turn that fetches any other
    opcode, or cannot fetch, leaves the flag dictionary as it was, however
    the turn ends. *)
Theorem flags_change_only_by_CMP s s' r :
  step s = (s', r) → fetch s ≠ Some CMP → flag s' = flag s.
Proof.
  intros Hs Hop. destruct (fetch s) as [op|] eqn:Hf.
  - rewrite (step_fetch _ _ Hf) in Hs.
    eapply dispatch_same_flags; [|done]. congruence.
  - rewrite (step_fetch_None _ Hf) in Hs. by injection Hs as <-.
Qed.

Lemma flags_change_only_by_CMP_witness :
  let s := set_flag {["E" := 1]} (boot [LDI; 0; 8; HLT]) in
  flag (fst (step s)) = {["E" := 1]}.
Proof.
  cbv zeta.
  set (s := set_flag {["E" := 1]} (boot [LDI; 0; 8; HLT])).
  assert (fetch s ≠ Some CMP) as Hf by (vm_compute; discriminate).
  exact (flags_change_only_by_CMP s (fst (step s)) (snd (step s))
           (surjective_pairing _) Hf).
Defined.

(** X20.  Only [PUSH] and [CALL] write to memory: a turn that fetches any
    other opcode, known or not, leaves every cell as it was.  In particular
    [LDI] loads registers only, and nothing but a push or a call can change
    the program. *)
Theorem memory_written_only_by_PUSH_CALL s s' r :
  step s = (s', r) → fetch s ≠ Some PUSH → fetch s ≠ Some CALL →
  ram s' = ram s.
Proof.
  intros Hs HPUSH HCALL. destruct (fetch s) as [op|] eqn:Hf.
  - rewrite (step_fetch _ _ Hf) in Hs.
    eapply dispatch_same_ram; [| |done]; congruence.
  - rewrite (step_fetch_None _ Hf) in Hs. by injection Hs as <-.
Qed.

Lemma memory_written_only_by_PUSH_CALL_witness :
  let s := boot [LDI; 0; 8; HLT] in ram (fst (step s)) = ram s.
Proof.
  cbv zeta. set (s := boot [LDI; 0; 8; HLT]).
  assert (fetch s ≠ Some PUSH) as H1 by (vm_compute; discriminate).
  assert (fetch s ≠ Some CALL) as H2 by (vm_compute; discriminate).
  exact (memory_written_only_by_PUSH_CALL s (fst (step s)) (snd (step s))
           (surjective_pairing _) H1 H2).
Defined.

(** X21.  Only [PRN], [HLT] and unknown opcodes print: a turn that fetches
    one of the ten other opcodes of the table writes nothing to the output,
    however it ends. *)
Theorem output_only_by_PRN_HLT s s' r op :
  step s = (s', r) → fetch s = Some op →
  op ∈ instruction_table → op ≠ PRN → op ≠ HLT →
  stdout s' = stdout s.
Proof.
  intros Hs Hf Hin HPRN HHLT. rewrite (step_fetch _ _ Hf) in Hs.
  by eapply dispatch_same_stdout.
Qed.

Lemma output_only_by_PRN_HLT_witness :
  let s := boot [JEQ; 0; HLT] in stdout (fst (step s)) = [].
Proof.
  cbv zeta. set (s := boot [JEQ; 0; HLT]).
  assert (JEQ ∈ instruction_table) as Hin.
  { unfold instruction_table. do 10 (apply elem_of_cons; right).
    apply elem_of_cons. by left. }
  exact (output_only_by_PRN_HLT s (fst (step s)) (snd (step s)) JEQ
           (surjective_pairing _) eq_refl Hin
           ltac:(discriminate) ltac:(discriminate)).
Defined.

(** ** The stack pointer *)

Lemma reg_get_Ok_inv s i s' x :
  reg_get i s = (s', Ok x) → s' = s ∧ getitem (reg s) i = Some x.
Proof.
  cbv [reg_get bind get sub ret raise].
  destruct (getitem (reg s) i); intros [= <- <-] || intros [=]; done.
Qed.

Lemma reg_set_Ok_inv s i v s' :
  reg_set i v s = (s', Ok tt) →
  ∃ r, setitem (reg s) i v = Some r ∧ s' = set_reg r s.
Proof.
  cbv [reg_set bind get sub ret raise modify].
  destruct (setitem (reg s) i v) as [r|]; intros [= <-] || intros [=].
  by exists r.
Qed.

Lemma ram_write_Ok_inv s v a s' :
  ram_write v a s = (s', Ok tt) →
  ∃ m, setitem (ram s) a v = Some m ∧ s' = set_ram m s.
Proof.
  cbv [ram_write ram_set bind get sub ret raise modify].
  destruct (setitem (ram s) a v) as [m|]; intros [= <-] || intros [=].
  by exists m.
Qed.

Lemma reg_isub_Ok_inv s i n s' :
  reg_isub i n s = (s', Ok tt) →
  ∃ x r, getitem (reg s) i = Some x ∧ setitem (reg s) i (x - n) = Some r ∧
         s' = set_reg r s.
Proof.
  unfold reg_isub. intros (s1 & x & [-> Hx]%reg_get_Ok_inv & Hs)%bind_Ok_inv.
  apply reg_set_Ok_inv in Hs as (r & Hr & ->). eauto.
Qed.

Lemma reg_iadd_Ok_inv s i n s' :
  reg_iadd i n s = (s', Ok tt) →
  ∃ x r, getitem (reg s) i = Some x ∧ setitem (reg s) i (x + n) = Some r ∧
         s' = set_reg r s.
Proof.
  unfold reg_iadd. intros (s1 & x & [-> Hx]%reg_get_Ok_inv & Hs)%bind_Ok_inv.
  apply reg_set_Ok_inv in Hs as (r & Hr & ->). eauto.
Qed.

(** X22.  A [PUSH] or [CALL] that returns has subtracted exactly 1 from the
    stack pointer and left every other register, the flags and the output as
    they were; [PUSH] has added 2 to [pc], and [CALL] has set [pc] to the
    register named by its operand byte. *)
Theorem PUSH_CALL_decrement s s' op :
  fetch s = Some op → op = PUSH ∨ op = CALL → step s = (s', Ok tt) →
  ∃ sp, getitem (reg s) SP = Some sp ∧
    getitem (reg s') SP = Some (sp - 1) ∧
    (∀ j, ¬ same_cell (reg s) j SP → getitem (reg s') j = getitem (reg s) j) ∧
    length (reg s') = length (reg s) ∧
    flag s' = flag s ∧ stdout s' = stdout s ∧
    (op = PUSH → pc s' = pc s + 2) ∧
    (op = CALL → ∃ r, getitem (ram s') (pc s + 1) = Some r ∧
                      getitem (reg s') r = Some (pc s')).
Proof.
  intros Hf Hop Hs. rewrite (step_fetch _ _ Hf) in Hs.
  destruct Hop as [-> | ->].
  - rewrite dispatch_PUSH in Hs.
    apply bind_Ok_inv in Hs as (s1 & [] & H1 & Hs).
    apply reg_isub_Ok_inv in H1 as (sp & regs & Hsp & Hregs & ->).
    apply bind_Ok_inv in Hs as (s2 & a & [-> _]%reg_get_Ok_inv & Hs).
    apply bind_Ok_inv in Hs as (s3 & r & [-> _]%ram_read_Ok_inv & Hs).
    apply bind_Ok_inv in Hs as (s4 & v & [-> _]%reg_get_Ok_inv & Hs).
    apply bind_Ok_inv in Hs as (s5 & [] & Hw & Hs).
    apply ram_write_Ok_inv in Hw as (m & Hm & ->).
    rewrite pc_add_Ok in Hs. injection Hs as <-. simpl.
    exists sp. split_and!; try done.
    + by eapply getitem_setitem_same.
    + intros j Hj. by eapply getitem_setitem_other.
    + by eapply setitem_length.
  - rewrite dispatch_CALL in Hs.
    apply bind_Ok_inv in Hs as (s1 & [] & H1 & Hs).
    apply reg_isub_Ok_inv in H1 as (sp & regs & Hsp & Hregs & ->).
    apply bind_Ok_inv in Hs as (s2 & a & [-> _]%reg_get_Ok_inv & Hs).
    apply bind_Ok_inv in Hs as (s3 & [] & Hw & Hs).
    apply ram_write_Ok_inv in Hw as (m & Hm & ->).
    apply bind_Ok_inv in Hs as (s4 & r & [-> Hr]%ram_read_Ok_inv & Hs).
    apply bind_Ok_inv in Hs as (s5 & t & [-> Ht]%reg_get_Ok_inv & Hs).
    rewrite pc_set_Ok in Hs. injection Hs as <-. simpl in *.
    exists sp. split_and!; try done.
    + by eapply getitem_setitem_same.
    + intros j Hj. by eapply getitem_setitem_other.
    + by eapply setitem_length.
    + intros _. by exists r.
Qed.

Lemma PUSH_CALL_decrement_witness :
  let s := boot [PUSH; 0; HLT] in
  getitem (reg (fst (step s))) SP = Some (-1) ∧ pc (fst (step s)) = 2.
Proof.
  cbv zeta. set (s := boot [PUSH; 0; HLT]).
  assert (step s = (fst (step s), Ok tt)) as Hs by (vm_compute; reflexivity).
  destruct (PUSH_CALL_decrement s (fst (step s)) PUSH eq_refl
              (or_introl eq_refl) Hs)
    as (sp & Hsp & Hsp' & _ & _ & _ & _ & Hpc & _).
  assert (sp = 0) as -> by (vm_compute in Hsp; by injection Hsp).
  split; [exact Hsp' | by apply Hpc].
Defined.

Lemma step_sp_down s s' op sp :
  fetch s = Some op → op = PUSH ∨ op = CALL → step s = (s', Ok tt) →
  getitem (reg s) SP = Some sp → getitem (reg s') SP = Some (sp - 1).
Proof.
  intros Hf Hop Hs Hsp. rewrite (step_fetch _ _ Hf) in Hs.
  destruct Hop as [-> | ->].
  - rewrite dispatch_PUSH in Hs.
    apply bind_Ok_inv in Hs as (s1 & [] & H1 & Hs).
    apply reg_isub_Ok_inv in H1 as (sp' & regs & Hsp' & Hregs & ->).
    apply bind_Ok_inv in Hs as (s2 & a & [-> _]%reg_get_Ok_inv & Hs).
    apply bind_Ok_inv in Hs as (s3 & r & [-> _]%ram_read_Ok_inv & Hs).
    apply bind_Ok_inv in Hs as (s4 & v & [-> _]%reg_get_Ok_inv & Hs).
    apply bind_Ok_inv in Hs as (s5 & [] & Hw & Hs).
    apply ram_write_Ok_inv in Hw as (m & Hm & ->).
    rewrite pc_add_Ok in Hs. injection Hs as <-. simpl.
    assert (sp' = sp) as -> by congruence.
    by eapply getitem_setitem_same.
  - rewrite dispatch_CALL in Hs.
    apply bind_Ok_inv in Hs as (s1 & [] & H1 & Hs).
    apply reg_isub_Ok_inv in H1 as (sp' & regs & Hsp' & Hregs & ->).
    apply bind_Ok_inv in Hs as (s2 & a & [-> _]%reg_get_Ok_inv & Hs).
    apply bind_Ok_inv in Hs as (s3 & [] & Hw & Hs).
    apply ram_write_Ok_inv in Hw as (m & Hm & ->).
    apply bind_Ok_inv in Hs as (s4 & r & [-> Hr]%ram_read_Ok_inv & Hs).
    apply bind_Ok_inv in Hs as (s5 & t & [-> Ht]%reg_get_Ok_inv & Hs).
    rewrite pc_set_Ok in Hs. injection Hs as <-. simpl.
    assert (sp' = sp) as -> by congruence.
    by eapply getitem_setitem_same.
Qed.

Lemma step_sp_up s s' op sp :
  fetch s = Some op →
  op = RET ∨
  (op = POP ∧ ∀ r, getitem (ram s) (pc s + 1) = Some r →
                   ¬ same_cell (reg s) r SP) →
  step s = (s', Ok tt) →
  getitem (reg s) SP = Some sp → getitem (reg s') SP = Some (sp + 1).
Proof.
  intros Hf Hop Hs Hsp. rewrite (step_fetch _ _ Hf) in Hs.
  destruct Hop as [-> | [-> Hr]].
  - rewrite dispatch_RET in Hs.
    apply bind_Ok_inv in Hs as (s1 & sp' & [-> Hsp']%reg_get_Ok_inv & Hs).
    apply bind_Ok_inv in Hs as (s2 & t & [-> _]%ram_read_Ok_inv & Hs).
    apply bind_Ok_inv in Hs as (s3 & [] & H3 & Hs).
    rewrite pc_set_Ok in H3. injection H3 as <-.
    apply reg_iadd_Ok_inv in Hs as (x & regs & Hx & Hregs & ->).
    simpl in *. assert (x = sp) as -> by congruence.
    by eapply getitem_setitem_same.
  - rewrite dispatch_POP in Hs.
    apply bind_Ok_inv in Hs as (s1 & sp' & [-> Hsp']%reg_get_Ok_inv & Hs).
    apply bind_Ok_inv in Hs as (s2 & v & [-> _]%ram_read_Ok_inv & Hs).
    apply bind_Ok_inv in Hs as (s3 & r & [-> Hr']%ram_read_Ok_inv & Hs).
    apply bind_Ok_inv in Hs as (s4 & [] & H4 & Hs).
    apply reg_set_Ok_inv in H4 as (regs1 & H1 & ->).
    apply bind_Ok_inv in Hs as (s5 & [] & H5 & Hs).
    apply reg_iadd_Ok_inv in H5 as (x & regs & Hx & Hregs & ->).
    rewrite pc_add_Ok in Hs. injection Hs as <-. simpl in *.
    assert (x = sp) as ->.
    { rewrite (getitem_setitem_other _ _ SP _ _ H1) in Hx; [congruence|].
      intros Heq. apply (Hr r Hr'). unfold same_cell. congruence. }
    by eapply getitem_setitem_same.
Qed.

(** X23.  The stack pointer comes back: when a [PUSH] or [CALL] that
    returns is followed by a [RET], or by a [POP] whose operand does not name
    the stack pointer itself, that returns, [reg[7]] holds again what it held
    before the first of the two. *)
Theorem stack_pointer_restored s s1 s' op1 op2 :
  fetch s = Some op1 → op1 = PUSH ∨ op1 = CALL → step s = (s1, Ok tt) →
  fetch s1 = Some op2 →
  op2 = RET ∨
  (op2 = POP ∧ ∀ r, getitem (ram s1) (pc s1 + 1) = Some r →
                    ¬ same_cell (reg s1) r SP) →
  step s1 = (s', Ok tt) →
  is_Some (getitem (reg s) SP) ∧ getitem (reg s') SP = getitem (reg s) SP.
Proof.
  intros Hf1 Hop1 Hs1 Hf2 Hop2 Hs2.
  assert (is_Some (getitem (reg s) SP)) as [sp Hsp].
  { destruct (getitem (reg s) SP) as [sp|] eqn:Hsp; [by eexists|].
    exfalso. rewrite (step_fetch _ _ Hf1) in Hs1.
    destruct Hop1 as [-> | ->];
      rewrite ?dispatch_PUSH, ?dispatch_CALL in Hs1;
      unfold reg_isub in Hs1;
      (erewrite bind_Raise in Hs1;
         [done | erewrite bind_Raise; [done | by apply reg_get_Raise]]). }
  split; [by eexists|].
  pose proof (step_sp_down _ _ _ _ Hf1 Hop1 Hs1 Hsp) as Hdown.
  pose proof (step_sp_up _ _ _ _ Hf2 Hop2 Hs2 Hdown) as Hup.
  rewrite Hup, Hsp. f_equal. lia.
Qed.

Lemma stack_pointer_restored_witness :
  let s := boot [PUSH; 0; POP; 1; HLT] in
  getitem (reg (fst (run 2 s))) SP = Some 0.
Proof.
  cbv zeta. set (s := boot [PUSH; 0; POP; 1; HLT]).
  set (s1 := fst (step s)).
  assert (step s = (s1, Ok tt)) as Hs1 by (vm_compute; reflexivity).
  assert (step s1 = (fst (run 2 s), Ok tt)) as Hs2
    by (vm_compute; reflexivity).
  assert (fetch s1 = Some POP) as Hf2 by (vm_compute; reflexivity).
  assert (∀ r, getitem (ram s1) (pc s1 + 1) = Some r →
               ¬ same_cell (reg s1) r SP) as Hr.
  { intros r Hr. vm_compute in Hr. injection Hr as <-.
    unfold same_cell. vm_compute. discriminate. }
  destruct (stack_pointer_restored s s1 (fst (run 2 s)) PUSH POP eq_refl
              (or_introl eq_refl) Hs1 Hf2 (or_intror (conj eq_refl Hr)) Hs2)
    as [_ H].
  rewrite H. reflexivity.
Defined.

(** ** Instructions at the end of memory, and the two ALU instructions *)

Lemma dispatch_MUL alu' p :
  dispatch alu' p MUL
  = (reg_a <-- ram_read (p + 1) ;; reg_b <-- ram_read (p + 2) ;;
     alu' "MUL" reg_a reg_b ;;; pc_add 3).
Proof. reflexivity. Qed.

(** X24.  An instruction that takes operands cannot sit in the last cell:
    with [pc = 255] every opcode of the table except [RET] and [HLT] ends the
    turn with [IndexError], because an operand address is 256 or 257. *)
Theorem operand_past_memory s op :
  shaped s → pc s = 255 → fetch s = Some op →
  op ∈ instruction_table → op ≠ RET → op ≠ HLT →
  snd (step s) = Raise IndexError.
Proof.
  intros [Hreg Hram] Hpc Hf Hin HRET HHLT.
  assert (getitem (ram s) (pc s + 1) = None) as H1.
  { unfold getitem. rewrite py_index_out; [done|]. rewrite Hram. lia. }
  assert (∀ v, setitem (ram s) (pc s + 2) v = None) as H2.
  { intros v. unfold setitem. rewrite py_index_out; [done|]. rewrite Hram. lia. }
  assert (∃ sp, getitem (reg s) SP = Some sp) as [sp Hsp].
  { apply (getitem_is_Some (reg s) SP). rewrite Hreg. unfold SP. lia. }
  destruct (setitem_is_Some (reg s) SP (sp - 1)) as [_ [regs Hregs]];
    [by eexists|].
  assert (getitem regs SP = Some (sp - 1)) as Hsp'
    by (by eapply getitem_setitem_same).
  rewrite (step_fetch _ _ Hf).
  apply in_table in Hin.
  destruct Hin as [->|[->|[->|[->|[->|[->|[->|[->|[->|[->|[->| ->]]]]]]]]]]];
    try done.
  - rewrite dispatch_LDI. by erewrite bind_Raise by (by apply ram_get_Raise).
  - rewrite dispatch_PRN. by erewrite bind_Raise by (by apply ram_get_Raise).
  - rewrite dispatch_MUL.
    by erewrite bind_Raise by (by apply ram_read_Raise).
  - rewrite dispatch_POP. next_m.
    destruct (getitem (ram s) sp) as [v|] eqn:Hv.
    + next_m. by erewrite bind_Raise by (by apply ram_read_Raise).
    + by erewrite bind_Raise by (by apply ram_read_Raise).
  - rewrite dispatch_PUSH.
    erewrite bind_Ok by (by eapply reg_isub_Ok). next_m.
    by erewrite bind_Raise by (by apply ram_read_Raise).
  - rewrite dispatch_CALL.
    erewrite bind_Ok by (by eapply reg_isub_Ok). next_m.
    by erewrite bind_Raise by (apply ram_write_Raise; apply H2).
  - rewrite dispatch_CMP.
    by erewrite bind_Raise by (by apply ram_read_Raise).
  - rewrite dispatch_JMP.
    by erewrite bind_Raise by (by apply ram_read_Raise).
  - rewrite dispatch_JNE.
    by erewrite bind_Raise by (by apply ram_read_Raise).
  - rewrite dispatch_JEQ.
    by erewrite bind_Raise by (by apply ram_read_Raise).
Qed.

Lemma operand_past_memory_witness :
  let s := set_pc 255 (set_ram (<[255%nat := JMP]> (ram init)) init) in
  snd (step s) = Raise IndexError.
Proof.
  cbv zeta.
  set (s := set_pc 255 (set_ram (<[255%nat := JMP]> (ram init)) init)).
  assert (shaped s) as Hshape by (split; reflexivity).
  assert (JMP ∈ instruction_table) as Hin.
  { unfold instruction_table. do 8 (apply elem_of_cons; right).
    apply elem_of_cons. by left. }
  exact (operand_past_memory s JMP Hshape eq_refl eq_refl Hin
           ltac:(discriminate) ltac:(discriminate)).
Defined.

(** X25.  The instruction [MUL]: with operand bytes [a] and [b] readable and
    the registers they name holding [x] and [y], the turn stores the exact
    product in [reg[a]], adds 3 to [pc], and leaves every other register,
    the memory, the flags and the output as they were. *)
Theorem step_MUL s a b x y :
  fetch s = Some MUL →
  getitem (ram s) (pc s + 1) = Some a → getitem (ram s) (pc s + 2) = Some b →
  getitem (reg s) a = Some x → getitem (reg s) b = Some y →
  ∃ regs, step s = (set_pc (pc s + 3) (set_reg regs s), Ok tt) ∧
    getitem regs a = Some (x * y) ∧
    (∀ c, ¬ same_cell (reg s) c a → getitem regs c = getitem (reg s) c).
Proof.
  intros Hf Ha Hb Hx Hy.
  destruct (alu_MUL_eq s a b x y Hx Hy) as (regs & Hregs & Halu).
  exists regs. split_and!.
  - rewrite (step_fetch _ _ Hf), dispatch_MUL. do 2 next_m.
    by erewrite bind_Ok by exact Halu.
  - by eapply getitem_setitem_same.
  - intros c Hc. by eapply getitem_setitem_other.
Qed.

Lemma step_MUL_witness :
  let s := set_reg [8; 9; 0; 0; 0; 0; 0; 0] (boot [MUL; 0; 1; HLT]) in
  ∃ regs, step s = (set_pc 3 (set_reg regs s), Ok tt) ∧
    getitem regs 0 = Some 72.
Proof.
  cbv zeta.
  destruct (step_MUL (set_reg [8; 9; 0; 0; 0; 0; 0; 0] (boot [MUL; 0; 1; HLT]))
              0 1 8 9 eq_refl eq_refl eq_refl eq_refl eq_refl)
    as (regs & Hs & Hr & _).
  exists regs. by split.
Defined.

(** X26.  The instruction [CMP]: with operand bytes [a] and [b] readable and
    the registers they name holding [x] and [y], the turn sets [L], [G] and
    [E] to 1 or 0 as [x < y], [x > y], [x = y], keeps any other key of the
    flag dictionary, adds 3 to [pc], and leaves registers, memory and output
    as they were. *)
Theorem step_CMP s a b x y :
  fetch s = Some CMP →
  getitem (ram s) (pc s + 1) = Some a → getitem (ram s) (pc s + 2) = Some b →
  getitem (reg s) a = Some x → getitem (reg s) b = Some y →
  ∃ f, step s = (set_pc (pc s + 3) (set_flag f s), Ok tt) ∧
    f !! "L" = Some (bit (bool_decide (x < y))) ∧
    f !! "G" = Some (bit (bool_decide (x > y))) ∧
    f !! "E" = Some (bit (bool_decide (x = y))) ∧
    (∀ k, k ∉ ["L"; "G"; "E"] → f !! k = flag s !! k).
Proof.
  intros Hf Ha Hb Hx Hy. exists (cmp_flags x y (flag s)). split_and!.
  - rewrite (step_fetch _ _ Hf), dispatch_CMP. do 2 next_m.
    by erewrite bind_Ok by (by apply alu_CMP_eq).
  - unfold cmp_flags. by rewrite !lookup_insert_ne, lookup_insert_eq by done.
  - unfold cmp_flags. by rewrite lookup_insert_ne, lookup_insert_eq by done.
  - unfold cmp_flags. by rewrite lookup_insert_eq.
  - intros k Hk. rewrite !not_elem_of_cons in Hk.
    destruct Hk as (HL & HG & HE & _).
    unfold cmp_flags. by rewrite !lookup_insert_ne by done.
Qed.

Lemma step_CMP_witness :
  let s := set_reg [3; 5; 0; 0; 0; 0; 0; 0] (boot [CMP; 0; 1; HLT]) in
  ∃ f, step s = (set_pc 3 (set_flag f s), Ok tt) ∧
    f !! "L" = Some 1 ∧ f !! "G" = Some 0 ∧ f !! "E" = Some 0.
Proof.
  cbv zeta.
  destruct (step_CMP (set_reg [3; 5; 0; 0; 0; 0; 0; 0] (boot [CMP; 0; 1; HLT]))
              0 1 3 5 eq_refl eq_refl eq_refl eq_refl eq_refl)
    as (f & Hs & HL & HG & HE & _).
  exists f. by split_and!.
Defined.
